(** * clone: cloning a Git repository's default-branch archive without Git

    A shallow embedding of [clone/__init__.py] and the properties of it
    that the specification states.

    - Python [str] is [string], a text standing for its UTF-8 bytes; the
      string methods used by the program ([startswith], [endswith],
      [count], [format]) and the [os.path] helpers ([join], [basename],
      [splitext], POSIX flavour) are written out below.  [lower] is written
      out on ASCII text; on other text it is what the Unicode tables of the
      interpreter give, a parameter of the development.
    - Exceptions are values of [exn]; a computation that may raise returns
      [exn + A].
    - The file system is a finite map from paths to nodes, threaded through
      a state-and-exception monad together with a log of the calls made to
      the outside world.
    - The network, the zip reader and the identity queries of the operating
      system are parameters of the development. *)

From Stdlib Require Import ZArith List Bool Ascii String Lia.
From stdpp Require Import base option list gmap strings.
Import ListNotations.

#[local] Open Scope string_scope.
#[local] Open Scope Z_scope.

(** ** Python strings *)

Module Str.

(** [c.lower()] for one ASCII character: only 'A'..'Z' change. *)
Definition lower_ascii (c : ascii) : ascii :=
  let n := nat_of_ascii c in
  if ((65 <=? n) && (n <=? 90))%nat then ascii_of_nat (n + 32) else c.

(** [s.lower()] for a text of ASCII characters. *)
Fixpoint ascii_lower (s : string) : string :=
  match s with
  | EmptyString => EmptyString
  | String c s' => String (lower_ascii c) (ascii_lower s')
  end.

(** [s.isascii()]: every character is below 128. *)
Fixpoint isascii (s : string) : bool :=
  match s with
  | EmptyString => true
  | String c s' => (nat_of_ascii c <? 128)%nat && isascii s'
  end.

(** [s.startswith(p)] *)
Definition startswith (s p : string) : bool := String.prefix p s.

(** [s.endswith("/")]-style test on the last character. *)
Fixpoint endswith_char (s : string) (c : ascii) : bool :=
  match s with
  | EmptyString => false
  | String a EmptyString => Ascii.eqb a c
  | String _ s' => endswith_char s' c
  end.

(** [s.count(c)] for a one-character [c]. *)
Fixpoint count_char (s : string) (c : ascii) : nat :=
  match s with
  | EmptyString => O
  | String a s' => ((if Ascii.eqb a c then 1 else 0) + count_char s' c)%nat
  end.

(** [s.rfind(c)] for a one-character [c]: the last index, or -1. *)
Fixpoint rfind_from (s : string) (c : ascii) (i last : Z) : Z :=
  match s with
  | EmptyString => last
  | String a s' => rfind_from s' c (i + 1) (if Ascii.eqb a c then i else last)
  end.

Definition rfind (s : string) (c : ascii) : Z := rfind_from s c 0 (-1).

(** [s[:i]] and [s[i:]] for [0 <= i]. *)
Definition take (i : Z) (s : string) : string :=
  String.substring 0 (Z.to_nat i) s.

Definition drop (i : Z) (s : string) : string :=
  String.substring (Z.to_nat i) (String.length s - Z.to_nat i) s.

(** [bool(s)]: a string is truthy when it is not empty. *)
Definition truthy (s : string) : bool :=
  match s with EmptyString => false | _ => true end.

(** [template.format(user=user, repo=repo)] on templates whose only
    replacement fields are [{user}] and [{repo}].  [skip] counts the
    characters of a field that remain to be dropped. *)
Fixpoint format_from (skip : nat) (t user repo : string) : string :=
  match t with
  | EmptyString => EmptyString
  | String c t' =>
      match skip with
      | S k => format_from k t' user repo
      | O =>
          if String.prefix "{user}" t then user ++ format_from 5 t' user repo
          else if String.prefix "{repo}" t then repo ++ format_from 5 t' user repo
          else String c (format_from 0 t' user repo)
      end
  end.

Definition format (t user repo : string) : string := format_from 0 t user repo.

End Str.

(** ** [os.path] (POSIX) *)

Module OsPath.

Definition sep : ascii := "/"%char.
Definition extsep : ascii := "."%char.

(** [os.path.join(a, b)] *)
Definition join (a b : string) : string :=
  if Str.startswith b "/" then b
  else if negb (Str.truthy a) || Str.endswith_char a sep then a ++ b
  else a ++ "/" ++ b.

(** [os.path.basename(p)]: what follows the last separator. *)
Definition basename (p : string) : string :=
  Str.drop (Str.rfind p sep + 1) p.

(** The loop of [genericpath._splitext] that skips the leading dots of
    the file name; [n] bounds the remaining iterations
    ([dotIndex - filenameIndex]). *)
Fixpoint splitext_loop (p : string) (filenameIndex dotIndex : Z) (n : nat)
  : option string :=
  match n with
  | O => None
  | S n' =>
      match String.get (Z.to_nat filenameIndex) p with
      | Some c =>
          if negb (Ascii.eqb c extsep) then Some (Str.take dotIndex p)
          else splitext_loop p (filenameIndex + 1) dotIndex n'
      | None => Some (Str.take dotIndex p)
      end
  end.

(** [os.path.splitext(p)[0]] *)
Definition splitext_root (p : string) : string :=
  let sepIndex := Str.rfind p sep in
  let dotIndex := Str.rfind p extsep in
  if sepIndex <? dotIndex then
    match splitext_loop p (sepIndex + 1) dotIndex
            (Z.to_nat (dotIndex - (sepIndex + 1))) with
    | Some root => root
    | None => p
    end
  else p.

End OsPath.

(** ** Exceptions *)

Inductive exn : Type :=
| FileExistsError (path : string)
| NotADirectoryError (path : string)
| IsADirectoryError (path : string)
| FileNotFoundError (path : string)
| KeyError (key : string)
| AssertionError (msg : string)
| HTTPError (url : string)
| URLError (url : string)
| OtherError (what : string).

Definition result (A : Type) : Type := (exn + A)%type.

(** ** The table of sites *)

(** [URL_TEMPLATES]; a Python dict iterates in insertion order. *)
Definition URL_TEMPLATES : list (string * string) :=
  [ ("bitbucket", "https://bitbucket.org/{user}/{repo}/get/master.zip");
    ("github", "https://github.com/{user}/{repo}/archive/master.zip") ].

(** [d[key]], [None] standing for the [KeyError]. *)
Fixpoint dict_get (d : list (string * string)) (key : string) : option string :=
  match d with
  | [] => None
  | (k, v) :: d' => if String.eqb k key then Some v else dict_get d' key
  end.

(** [key in d] *)
Definition dict_mem (d : list (string * string)) (key : string) : bool :=
  match dict_get d key with Some _ => true | None => false end.

(** [list(d)]: the keys, in insertion order. *)
Definition dict_keys (d : list (string * string)) : list string := map fst d.

(** [URL_TEMPLATES[site]] for a resolved site. *)
Definition template_of (site : string) : string :=
  default "" (dict_get URL_TEMPLATES site).

(** ** The file system and the outside world *)

Inductive node : Type :=
| File (data : string)
| Dir.

(** A call made to the outside world, in the order the program makes it. *)
Inductive call : Type :=
| Urlretrieve (url path : string)
| Extractall (zip_path parent : string)
| Rename (src dst : string)
| Remove (path : string).

Record world : Type := World {
  fs : gmap string node;
  log : list call
}.

(** The identity sources [iter_default_users] consults. *)
Record identity : Type := Identity {
  getpass_getuser : result string;      (* getpass.getuser() *)
  expanduser_home : string;             (* os.path.expanduser('~'), never raises *)
  os_environ : gmap string string;      (* os.environ *)
  os_getlogin : result string           (* os.getlogin() *)
}.

Module Fs.

(** Trailing separators do not change which node a path names. *)
Fixpoint rstrip_sep (p : string) : string :=
  match p with
  | EmptyString => EmptyString
  | String c p' =>
      let r := rstrip_sep p' in
      if Ascii.eqb c OsPath.sep && negb (Str.truthy r) then EmptyString
      else String c r
  end.

Definition norm (p : string) : string :=
  let r := rstrip_sep p in
  if Str.truthy p && negb (Str.truthy r) then "/" else r.

Definition isdir (m : gmap string node) (p : string) : bool :=
  match m !! norm p with Some Dir => true | _ => false end.

(** A path that ends in a separator names no regular file. *)
Definition isfile (m : gmap string node) (p : string) : bool :=
  if Str.endswith_char p OsPath.sep then false
  else match m !! norm p with Some (File _) => true | _ => false end.

Definition under (dir p : string) : bool := String.prefix (dir ++ "/") p.

Definition rebase (src dst p : string) : string :=
  if String.eqb p src then dst
  else if under src p then dst ++ Str.drop (Z.of_nat (String.length src)) p
  else p.

Definition has_children (m : gmap string node) (dir : string) : bool :=
  existsb (fun kv => under dir (fst kv)) (map_to_list m).

Definition move (m : gmap string node) (src dst : string) : gmap string node :=
  list_to_map (map (fun kv => (rebase src dst (fst kv), snd kv)) (map_to_list m)).

(** [os.rename(src, dst)] on POSIX; renaming a node onto itself does
    nothing. *)
Definition rename (m : gmap string node) (src dst : string)
  : result (gmap string node) :=
  let s := norm src in
  let d := norm dst in
  match m !! s, m !! d with
  | None, _ => inl (FileNotFoundError src)
  | Some _, _ =>
      if String.eqb s d then inr m
      else
        match m !! s, m !! d with
        | Some Dir, Some (File _) => inl (NotADirectoryError dst)
        | Some Dir, Some Dir =>
            if has_children m d then inl (OtherError "Directory not empty")
            else inr (move (delete d m) s d)
        | Some (File _), Some Dir => inl (IsADirectoryError dst)
        | _, _ => inr (move (delete d m) s d)
        end
  end.

End Fs.

(** ** Computations: state and exceptions *)

Definition M (A : Type) : Type := world -> result A * world.

Definition ret {A} (a : A) : M A := fun w => (inr a, w).

Definition raise {A} (e : exn) : M A := fun w => (inl e, w).

Definition bind {A B} (m : M A) (k : A -> M B) : M B :=
  fun w =>
    match m w with
    | (inl e, w') => (inl e, w')
    | (inr a, w') => k a w'
    end.

Notation "x <- m ;; k" := (bind m (fun x => k))
  (at level 100, m at next level, right associativity).
Notation "m ;;; k" := (bind m (fun _ => k))
  (at level 100, right associativity).

(** [try: body / except: handler(e)] with a bare [except]. *)
Definition try_except {A} (body : M A) (handler : exn -> M A) : M A :=
  fun w =>
    match body w with
    | (inl e, w') => handler e w'
    | (inr a, w') => (inr a, w')
    end.

(** [try: body / finally: cleanup]; an exception of [cleanup] replaces the
    outcome of [body]. *)
Definition try_finally {A} (body : M A) (cleanup : M unit) : M A :=
  fun w =>
    match body w with
    | (r, w') =>
        match cleanup w' with
        | (inl e, w'') => (inl e, w'')
        | (inr _, w'') => (r, w'')
        end
    end.

Definition lift {A} (r : result A) : M A := fun w => (r, w).

Definition record_call (c : call) : M unit :=
  fun w => (inr tt, World (fs w) (log w ++ [c])%list).

Definition os_path_isdir (p : string) : M bool := fun w => (inr (Fs.isdir (fs w) p), w).

Definition os_path_isfile (p : string) : M bool := fun w => (inr (Fs.isfile (fs w) p), w).

(** [os.remove(p)] *)
Definition os_remove (p : string) : M unit :=
  record_call (Remove p) ;;;
  fun w =>
    if Fs.isfile (fs w) p then (inr tt, World (delete (Fs.norm p) (fs w)) (log w))
    else (inl (FileNotFoundError p), w).

(** [os.rename(src, dst)] *)
Definition os_rename (src dst : string) : M unit :=
  record_call (Rename src dst) ;;;
  fun w =>
    match Fs.rename (fs w) src dst with
    | inl e => (inl e, w)
    | inr m => (inr tt, World m (log w))
    end.

(** [if os.path.isfile(p): os.remove(p)], the clean-up statement of
    [download_file] and of [clone_from_url]. *)
Definition remove_if_file (p : string) : M unit :=
  f <- os_path_isfile p ;;
  if f then os_remove p else ret tt.

(** ** The run of a generator

    A generator is embedded by its complete run: the steps it takes, in
    order, and the exception that ends it, if any.  A consumer that stops
    early has seen a prefix of the steps. *)

Inductive step (Y : Type) : Type :=
| Probed (url : string)
| Yielded (y : Y).
Arguments Probed {Y} url.
Arguments Yielded {Y} y.

Definition gen (Y : Type) : Type := (list (step Y) * option exn)%type.

(** [for a in l: body(a)] inside a generator. *)
Fixpoint gen_for {A Y} (l : list A) (body : A -> gen Y) : gen Y :=
  match l with
  | [] => ([], None)
  | a :: l' =>
      match body a with
      | (s, Some e) => (s, Some e)
      | (s, None) => let (s', r) := gen_for l' body in ((s ++ s')%list, r)
      end
  end.

Definition yields {Y} (g : gen Y) : list Y :=
  omap (fun s => match s with Yielded y => Some y | Probed _ => None end) (fst g).

Definition probes {Y} (g : gen Y) : list string :=
  omap (fun s => match s with Probed u => Some u | Yielded _ => None end) (fst g).

Definition raised {Y} (g : gen Y) : option exn := snd g.

(** [list(g)] *)
Definition gen_list {Y} (g : gen Y) : result (list Y) :=
  match raised g with
  | Some e => inl e
  | None => inr (yields g)
  end.

(** A [for] loop over a generator that leaves at the first value: the URLs
    probed until then, and the value, if the generator yields one. *)
Fixpoint gen_first {Y} (steps : list (step Y)) : list string * option Y :=
  match steps with
  | [] => ([], None)
  | Probed url :: rest => let (urls, y) := gen_first rest in (url :: urls, y)
  | Yielded y :: _ => ([], Some y)
  end.

(** An argument that is either one string or a sequence of strings. *)
Inductive strs : Type :=
| Str1 (s : string)
| Seq (l : list string).

(** [urllib.request.HTTPError] and [urllib.request.URLError], the two
    classes the probe catches. *)
Definition is_network_error (e : exn) : bool :=
  match e with
  | HTTPError _ | URLError _ => true
  | _ => false
  end.

(** ** The program *)

Definition newline : string := String (ascii_of_nat 10) EmptyString.

(** [USAGE], stripped. *)
Definition USAGE : string := "Usage:" ++ newline ++ "    clone REPO [USER] [SITE]".

(** What [main] leaves on the terminal and on the network: the lines
    printed and the URLs probed, in order. *)
Record console : Type := Console {
  stdout : list string;
  probed : list string
}.

Definition absolute_path_msg : string := "Downloaded repo contained absolute path.".
Definition empty_msg : string := "Downloaded repo was empty.".

(** The scan of [repo.namelist()] in [clone_from_url] (lines 74-79): the
    value of [root] when the loop ends, or the failed assertion. *)
Fixpoint find_root (names : list string) : result (option string) :=
  match names with
  | [] => inr None
  | name :: rest =>
      if negb (Str.truthy name && negb (Str.startswith name "/"))
      then inl (AssertionError absolute_path_msg)
      else if (Str.count_char name OsPath.sep =? 1)%nat && Str.endswith_char name OsPath.sep
      then inr (Some name)
      else find_root rest
  end.

(** An open [zipfile.ZipFile]. *)
Record zipfile : Type := Zip {
  zip_file_path : string;
  zip_data : string;
  namelist : list string
}.

(** ** Sample worlds

    Concrete instances of the parameters of the program, on which the
    definitions evaluate. *)

Module Sample.

Definition cwd : string := "/home/alice".

(** A network on which exactly the URLs of [live] answer. *)
Definition urlopen (live : list string) (url : string) : option exn :=
  if existsb (String.eqb url) live then None else Some (HTTPError url).

(** A transfer that succeeds and writes the bytes [data]. *)
Definition urlretrieve_ok (data : string) (url path : string)
    (m : gmap string node) : gmap string node * option exn :=
  (<[Fs.norm path := File data]> m, None).

(** A transfer that breaks off after writing [data]. *)
Definition urlretrieve_broken (data : string) (url path : string)
    (m : gmap string node) : gmap string node * option exn :=
  (<[Fs.norm path := File data]> m, Some (URLError url)).

(** A zip reader that finds the entries [names] in every file. *)
Definition zip_read (names : list string) (data : string) : result (list string) :=
  inr names.

(** Extraction of the entries [names]: leading separators are dropped, an
    entry that ends in a separator becomes a directory, any other entry
    a file. *)
Fixpoint lstrip_sep (p : string) : string :=
  match p with
  | String c p' => if Ascii.eqb c OsPath.sep then lstrip_sep p' else p
  | EmptyString => EmptyString
  end.

Definition zip_extractall (names : list string) (data parent : string)
    (m : gmap string node) : gmap string node * option exn :=
  (fold_left
     (fun m name =>
        <[Fs.norm (OsPath.join parent (lstrip_sep name)) :=
            if Str.endswith_char name OsPath.sep then Dir else File ""]> m)
     names m,
   None).

(** A process none of whose identity sources answers. *)
Definition nobody : identity :=
  {| getpass_getuser := inl (KeyError "getpwuid(): uid not found: 1234");
     expanduser_home := "~";
     os_environ := ∅;
     os_getlogin := inl (OtherError "OSError: [Errno 6] No such device or address") |}.

(** A process all of whose identity sources answer. *)
Definition alice : identity :=
  {| getpass_getuser := inr "alice";
     expanduser_home := "/home/Alice";
     os_environ := {[ "USER" := "alice"; "USERNAME" := "ALICE" ]};
     os_getlogin := inr "root" |}.

(** A network on which the probe of [bad] raises [e] and, of the
    others, exactly the URLs of [live] answer. *)
Definition urlopen_raising (bad : string) (e : exn) (live : list string)
    (url : string) : option exn :=
  if String.eqb url bad then Some e else urlopen live url.

(** A file system with the working directory of [cwd]. *)
Definition home : gmap string node := {[ "/home/alice" := Dir ]}.

(** A lowering for text outside ASCII none of whose characters outside
    ASCII has a case. *)
Definition unicode_lower (s : string) : string := Str.ascii_lower s.

(** A file system with the directory [/w]. *)
Definition disk : gmap string node := {[ "/w" := Dir ]}.

Definition start (m : gmap string node) : world := World m [].

End Sample.

(** The URLs of the candidates for the repository [foo] of alice and bob. *)
Abbreviation github_alice_foo := "https://github.com/alice/foo/archive/master.zip".
Abbreviation github_bob_foo := "https://github.com/bob/foo/archive/master.zip".
Abbreviation bitbucket_alice_foo := "https://bitbucket.org/alice/foo/get/master.zip".
Abbreviation bitbucket_bob_foo := "https://bitbucket.org/bob/foo/get/master.zip".

Section Program.

(** [str.lower] on text that is not ASCII. *)
Variable unicode_lower : string -> string.

(** [os.getcwd()] *)
Variable cwd : string.

(** [urllib.request.urlopen(url)]: [None] when it returns, the exception
    otherwise. *)
Variable urlopen : string -> option exn.

(** [urllib.request.urlretrieve(url, path)]: what it does to the file
    system, and the exception it raises, if any. *)
Variable urlretrieve :
  string -> string -> gmap string node -> gmap string node * option exn.

(** Reading the directory of a zip file from its bytes. *)
Variable zip_read : string -> result (list string).

(** [ZipFile.extractall(parent)] for a zip file with the given bytes. *)
Variable zip_extractall :
  string -> string -> gmap string node -> gmap string node * option exn.

(** The identity sources of the process. *)
Variable env : identity.

(** [s.lower()]: on ASCII text only 'A'..'Z' change; on any other text
    the result is the one of the interpreter. *)
Definition lower (s : string) : string :=
  if Str.isascii s then Str.ascii_lower s else unicode_lower s.

(** ** Site resolution

    Lines 117-122 of [clone] and lines 190-195 of [search] are the same
    statements; they are embedded once.  The result is the rebound [site]. *)
Definition resolve_site (site : string) : result string :=
  let site := lower site in
  if negb (dict_mem URL_TEMPLATES site) then
    let base := OsPath.splitext_root site in
    if negb (dict_mem URL_TEMPLATES base) then inl (KeyError site)
    else inr base
  else inr site.

(** The loop that ends [iter_default_users] (lines 153-157): the names it
    yields, [covered] being the set of lowered names seen so far. *)
Fixpoint yield_uncovered (candidates : list string) (covered : gset string)
  : list string :=
  match candidates with
  | [] => []
  | candidate :: rest =>
      if decide (lower candidate ∈ covered)
      then yield_uncovered rest covered
      else candidate :: yield_uncovered rest (covered ∪ {[ lower candidate ]})
  end.

Definition os_getcwd : M string := ret cwd.

Definition urllib_urlretrieve (url path : string) : M unit :=
  record_call (Urlretrieve url path) ;;;
  fun w =>
    match urlretrieve url path (fs w) with
    | (m, Some e) => (inl e, World m (log w))
    | (m, None) => (inr tt, World m (log w))
    end.

(** [zipfile.ZipFile(zip_path)] *)
Definition ZipFile (zip_path : string) : M zipfile :=
  fun w =>
    match fs w !! Fs.norm zip_path with
    | Some (File data) =>
        match zip_read data with
        | inl e => (inl e, w)
        | inr names => (inr (Zip zip_path data names), w)
        end
    | Some Dir => (inl (IsADirectoryError zip_path), w)
    | None => (inl (FileNotFoundError zip_path), w)
    end.

(** [repo.extractall(parent)] *)
Definition extractall (repo : zipfile) (parent : string) : M unit :=
  record_call (Extractall (zip_file_path repo) parent) ;;;
  fun w =>
    match zip_extractall (zip_data repo) parent (fs w) with
    | (m, Some e) => (inl e, World m (log w))
    | (m, None) => (inr tt, World m (log w))
    end.

(** The destination [download_file] settles on (lines 41-44). *)
Definition save_path_of (source_url : string) (save_path : option string)
  : M string :=
  save_path <- match save_path with
               | None => cwd <- os_getcwd ;;
                         ret (OsPath.join cwd (OsPath.basename source_url))
               | Some save_path => ret save_path
               end ;;
  d <- os_path_isdir save_path ;;
  if d then ret (OsPath.join save_path (OsPath.basename source_url))
  else ret save_path.

Definition download_file (source_url : string) (save_path : option string)
  : M string :=
  save_path <- save_path_of source_url save_path ;;
  f <- os_path_isfile save_path ;;
  if f then raise (FileExistsError save_path)
  else
    try_except
      (urllib_urlretrieve source_url save_path ;;;
       ret save_path)
      (fun e =>
         f <- os_path_isfile save_path ;;
         (if f then os_remove save_path else ret tt) ;;;
         raise e).

(** The first statement of [clone_from_url] and of [clone]. *)
Definition parent_of (parent : option string) : M string :=
  match parent with
  | None => os_getcwd
  | Some parent =>
      d <- os_path_isdir parent ;;
      if negb d then raise (NotADirectoryError parent) else ret parent
  end.

Definition clone_from_url (source_url : string) (parent : option string)
  : M string :=
  parent <- parent_of parent ;;
  zip_path <- download_file source_url (Some parent) ;;
  try_finally
    (repo <- ZipFile zip_path ;;
     root <- lift (find_root (namelist repo)) ;;
     match root with
     | None => raise (AssertionError empty_msg)
     | Some root =>
         let downloaded_path := OsPath.join parent root in
         d <- os_path_isdir downloaded_path ;;
         if d then raise (IsADirectoryError downloaded_path)
         else
           extractall repo parent ;;;
           d <- os_path_isdir downloaded_path ;;
           if negb d then raise (NotADirectoryError downloaded_path)
           else ret downloaded_path
     end)
    (f <- os_path_isfile zip_path ;;
     if f then os_remove zip_path else ret tt).

Definition clone (repo user site : string) (parent : option string)
  : M string :=
  parent <- parent_of parent ;;
  let path := OsPath.join parent repo in
  d <- os_path_isdir path ;;
  if d then raise (IsADirectoryError path)
  else
    site <- lift (resolve_site site) ;;
    let url := Str.format (template_of site) user repo in
    downloaded_path <- clone_from_url url (Some parent) ;;
    os_rename downloaded_path path ;;;
    d <- os_path_isdir path ;;
    if negb d then raise (NotADirectoryError path) else ret path.

(** The list [candidates] of [iter_default_users] (lines 138-151). *)
Definition default_candidates : result (list string) :=
  match getpass_getuser env with
  | inl e => inl e
  | inr user =>
      let candidates := [user; OsPath.basename (expanduser_home env)] in
      let candidates :=
        fold_left
          (fun candidates key =>
             match os_environ env !! key with
             | Some v => (candidates ++ [v])%list
             | None => candidates
             end)
          ["USER"; "USERNAME"] candidates in
      let candidates :=
        match os_getlogin env with
        | inr login => (candidates ++ [login])%list
        | inl _ => candidates
        end in
      inr candidates
  end.

Definition iter_default_users : gen string :=
  match default_candidates with
  | inl e => ([], Some e)
  | inr candidates => (map Yielded (yield_uncovered candidates ∅), None)
  end.

(** The body of the innermost loop of [search] (lines 199-205). *)
Definition probe (template site user repo : string)
  : gen (string * string * string) :=
  let url := Str.format template user repo in
  match urlopen url with
  | Some e =>
      if is_network_error e then ([Probed url], None)
      else ([Probed url], Some e)
  | None => ([Probed url; Yielded (repo, user, site)], None)
  end.

(** The loops of [search] (lines 189-205). *)
Definition search_loop (repos users sites : list string)
  : gen (string * string * string) :=
  gen_for sites (fun site =>
    match resolve_site site with
    | inl e => ([], Some e)
    | inr site =>
        let template := template_of site in
        gen_for users (fun user =>
          gen_for repos (fun repo =>
            probe template site user repo))
    end).

(** The three arguments of [search] as lists (lines 172-187); only the
    default users can raise. *)
Definition repos_list (repos : strs) : list string :=
  match repos with Str1 s => [s] | Seq l => l end.

Definition users_list (users : option strs) : result (list string) :=
  match users with
  | None => gen_list iter_default_users
  | Some (Str1 s) => inr [s]
  | Some (Seq l) => inr l
  end.

Definition sites_list (sites : option strs) : list string :=
  match sites with
  | None => dict_keys URL_TEMPLATES
  | Some (Str1 s) => [s]
  | Some (Seq l) => l
  end.

Definition search (repos : strs) (users sites : option strs)
  : gen (string * string * string) :=
  let repos := repos_list repos in
  match users_list users with
  | inl e => ([], Some e)
  | inr users =>
      let sites := sites_list sites in
      search_loop repos users sites
  end.

(** The [for ... else] of [main] (lines 226-232), for the arguments it has
    unpacked; [clone] is called with the default parent. *)
Definition main_loop (repo : string) (user site : option string) (w : world)
  : result Z * console * world :=
  let g := search (Str1 repo) (option_map Str1 user) (option_map Str1 site) in
  match gen_first (fst g) with
  | (urls, Some (matched_repo, matched_user, matched_site)) =>
      match clone matched_repo matched_user matched_site None w with
      | (inl e, w') => (inl e, Console [] urls, w')
      | (inr path, w') =>
          (inr 0,
           Console ["Repo " ++ matched_repo ++ " cloned to " ++ path ++ "."] urls,
           w')
      end
  | (urls, None) =>
      match raised g with
      | Some e => (inl e, Console [] urls, w)
      | None => (inr 1, Console ["Repo " ++ repo ++ " not found."] urls, w)
      end
  end.

(** [main()], [args] being [sys.argv[1:]]: the status returned or the
    exception that escapes. *)
Definition main (args : list string) (w : world) : result Z * console * world :=
  match args with
  | [] => (inr 1, Console [USAGE] [], w)
  | [repo] => main_loop repo None None w
  | [repo; user] => main_loop repo (Some user) None w
  | [repo; user; site] => main_loop repo (Some user) (Some site) w
  | _ => (inr 1, Console [USAGE] [], w)
  end.

(** ** What the specification says, in the terms of the program *)

(** The combinations [search] goes through, site-major, then user, then
    repo. *)
Definition candidates (sites users repos : list string)
  : list (string * string * string) :=
  flat_map (fun site =>
    flat_map (fun user =>
      map (fun repo => (site, user, repo)) repos) users) sites.

Definition candidate_url (c : string * string * string) : string :=
  let '(site, user, repo) := c in Str.format (template_of site) user repo.

(** The triple [search] yields for a combination. *)
Definition triple_of (c : string * string * string)
  : string * string * string :=
  let '(site, user, repo) := c in (repo, user, site).

Definition opened (url : string) : bool :=
  match urlopen url with None => true | Some _ => false end.

(** A probe that either answers or fails with a network error. *)
Definition settled (url : string) : Prop :=
  match urlopen url with
  | None => True
  | Some e => is_network_error e = true
  end.

Definition steps_of (c : string * string * string)
  : list (step (string * string * string)) :=
  Probed (candidate_url c)
  :: (if opened (candidate_url c) then [Yielded (triple_of c)] else []).

(** An entry the scan of the archive rejects: empty, or absolute. *)
Definition rejected (name : string) : bool :=
  negb (Str.truthy name) || Str.startswith name "/".

(** A top-level directory entry: exactly one separator, at the end. *)
Definition top_level_dir (name : string) : bool :=
  (Str.count_char name OsPath.sep =? 1)%nat && Str.endswith_char name OsPath.sep.

(** [os.path.exists(p)] *)
Definition path_exists (m : gmap string node) (p : string) : bool :=
  match m !! Fs.norm p with Some _ => true | None => false end.

(** The exceptions the specification calls [AlreadyExists]. *)
Definition already_exists (e : exn) : bool :=
  match e with
  | FileExistsError _ | IsADirectoryError _ => true
  | _ => false
  end.

(** The names the identity sources give when [getpass.getuser()] gives
    [user], in the order effective user, home directory, [USER],
    [USERNAME], login name; a source that does not answer gives none. *)
Definition sources_in_order (user : string) : list string :=
  ([user] ++ [OsPath.basename (expanduser_home env)]
   ++ option_list (os_environ env !! "USER")
   ++ option_list (os_environ env !! "USERNAME")
   ++ match os_getlogin env with inr login => [login] | inl _ => [] end)%list.

(** The name [n] at position [i] of [names] is the first of its case: no
    name before it has the same lowered form. *)
Definition first_of_case (names : list string) (i : nat) (n : string) : bool :=
  forallb (fun m => negb (String.eqb (lower m) (lower n))) (firstn i names).

(** The names of a list that are the first of their case, in order. *)
Definition first_occurrences (names : list string) : list string :=
  map snd
    (List.filter (fun p => first_of_case names (fst p) (snd p))
                 (combine (seq 0 (length names)) names)).

(** A name one of the identity sources gives. *)
Definition identity_source (name : string) : Prop :=
  getpass_getuser env = inr name \/
  name = OsPath.basename (expanduser_home env) \/
  os_environ env !! "USER" = Some name \/
  os_environ env !! "USERNAME" = Some name \/
  os_getlogin env = inr name.

(** The log of [w'] is the log of [w] followed by calls that all
    satisfy [P]. *)
Definition grows (P : call -> Prop) (w w' : world) : Prop :=
  exists delta, log w' = (log w ++ delta)%list /\ Forall P delta.

(** A computation that, from any world, makes only calls that satisfy [P]. *)
Definition calls_only {A} (P : call -> Prop) (m : M A) : Prop :=
  forall w, grows P w (snd (m w)).

(** The calls of a materialization that saves the archive of [url] at
    [zip_path] under [parent]. *)
Definition materializer_call (url zip_path parent : string) (c : call) : Prop :=
  match c with
  | Urlretrieve u q => u = url /\ q = zip_path
  | Extractall z q => z = zip_path /\ q = parent
  | Remove q => q = zip_path
  | Rename _ _ => False
  end.

(** The calls of a clone of [repo] of [user] from [site] into [parent]. *)
Definition clone_call (repo user site parent : string) (c : call) : Prop :=
  match c with
  | Urlretrieve u q =>
      (exists k, resolve_site site = inr k /\
                 u = Str.format (template_of k) user repo) /\
      q = OsPath.join parent "master.zip"
  | Extractall z q => z = OsPath.join parent "master.zip" /\ q = parent
  | Remove q => q = OsPath.join parent "master.zip"
  | Rename _ dst => dst = OsPath.join parent repo
  end.

(** The round of the innermost loop of [search] for a combination. *)
Definition probe_of (c : string * string * string)
  : gen (string * string * string) :=
  let '(site, user, repo) := c in probe (template_of site) site user repo.

(** A probe that failed with a network error. *)
Definition unreachable (url : string) : Prop :=
  exists e, urlopen url = Some e /\ is_network_error e = true.

(** The runs a sequence of probes can have: a probe that fails with a
    network error is followed by the rest; a probe that answers is followed
    by its yield and the rest; a probe that raises anything else ends the
    run, as does the exception of a site lookup. *)
Inductive probe_run {Y : Type} : gen Y -> Prop :=
| run_done : probe_run ([], None)
| run_raise (e : exn) : probe_run ([], Some e)
| run_fail (url : string) (g : gen Y) :
    unreachable url -> probe_run g -> probe_run (Probed url :: fst g, snd g)
| run_stop (url : string) (e : exn) :
    urlopen url = Some e -> is_network_error e = false ->
    probe_run ([Probed url], Some e)
| run_hit (url : string) (y : Y) (g : gen Y) :
    urlopen url = None -> probe_run g ->
    probe_run (Probed url :: Yielded y :: fst g, snd g).

(** ** Strings and the table *)

Lemma lower_ascii_idem (c : ascii) :
  Str.lower_ascii (Str.lower_ascii c) = Str.lower_ascii c.
Proof.
  destruct c as [[] [] [] [] [] [] [] []]; vm_compute; reflexivity.
Qed.

Lemma lower_ascii_below (c : ascii) :
  (nat_of_ascii (Str.lower_ascii c) <? 128)%nat = (nat_of_ascii c <? 128)%nat.
Proof.
  destruct c as [[] [] [] [] [] [] [] []]; vm_compute; reflexivity.
Qed.

Lemma ascii_lower_idem (s : string) :
  Str.ascii_lower (Str.ascii_lower s) = Str.ascii_lower s.
Proof.
  induction s as [|c s IH]; simpl; [reflexivity|].
  now rewrite lower_ascii_idem, IH.
Qed.

Lemma isascii_ascii_lower (s : string) :
  Str.isascii (Str.ascii_lower s) = Str.isascii s.
Proof.
  induction s as [|c s IH]; [reflexivity|].
  cbn [Str.ascii_lower Str.isascii]. now rewrite lower_ascii_below, IH.
Qed.

(** On ASCII text [lower] is the lowering of 'A'..'Z', and lowering twice
    is lowering once. *)
Lemma lower_on_ascii (s : string) :
  Str.isascii s = true -> lower s = Str.ascii_lower s.
Proof. intros H. unfold lower. now rewrite H. Qed.

Lemma lower_idem_on_ascii (s : string) :
  Str.isascii s = true -> lower (lower s) = lower s.
Proof.
  intros H. rewrite (lower_on_ascii s H). unfold lower.
  now rewrite isascii_ascii_lower, H, ascii_lower_idem.
Qed.

Lemma dict_mem_keys (k : string) :
  dict_mem URL_TEMPLATES k = true <-> k = "bitbucket" \/ k = "github".
Proof.
  unfold dict_mem, URL_TEMPLATES, dict_get.
  destruct (String.eqb_spec "bitbucket" k) as [<-|Hb].
  - split; [now left | reflexivity].
  - destruct (String.eqb_spec "github" k) as [<-|Hg].
    + split; [now right | reflexivity].
    + split; [discriminate | intros [->| ->]; congruence].
Qed.

Lemma dict_mem_In (k : string) :
  dict_mem URL_TEMPLATES k = true -> In k (dict_keys URL_TEMPLATES).
Proof.
  intros H; apply dict_mem_keys in H as [->| ->]; simpl; auto.
Qed.

Lemma resolve_site_key (k : string) :
  dict_mem URL_TEMPLATES k = true -> resolve_site k = inr k.
Proof.
  intros H; apply dict_mem_keys in H as [->| ->]; reflexivity.
Qed.

Lemma resolve_site_inr (site k : string) :
  resolve_site site = inr k ->
  dict_mem URL_TEMPLATES k = true /\
  (k = lower site \/
   dict_mem URL_TEMPLATES (lower site) = false /\
   k = OsPath.splitext_root (lower site)).
Proof.
  unfold resolve_site.
  destruct (dict_mem URL_TEMPLATES (lower site)) eqn:Hd; simpl.
  - intros [= <-]; auto.
  - destruct (dict_mem URL_TEMPLATES (OsPath.splitext_root (lower site)))
      eqn:Hb; simpl; [|discriminate].
    intros [= <-]; auto.
Qed.

Lemma resolve_site_inl (site : string) (e : exn) :
  resolve_site site = inl e ->
  e = KeyError (lower site) /\
  dict_mem URL_TEMPLATES (lower site) = false /\
  dict_mem URL_TEMPLATES (OsPath.splitext_root (lower site)) = false.
Proof.
  unfold resolve_site.
  destruct (dict_mem URL_TEMPLATES (lower site)) eqn:Hd; simpl;
    [discriminate|].
  destruct (dict_mem URL_TEMPLATES (OsPath.splitext_root (lower site)))
    eqn:Hb; simpl; [discriminate|].
  intros [= <-]; auto.
Qed.

(** ** Generators *)

Lemma gen_for_app {A Y} (l1 l2 : list A) (body : A -> gen Y) :
  gen_for (l1 ++ l2)%list body =
  match gen_for l1 body with
  | (s, Some e) => (s, Some e)
  | (s, None) => let (s', r) := gen_for l2 body in ((s ++ s')%list, r)
  end.
Proof.
  induction l1 as [|a l1 IH]; simpl.
  - now destruct (gen_for l2 body).
  - destruct (body a) as [s [e|]]; [reflexivity|].
    rewrite IH.
    destruct (gen_for l1 body) as [s1 [e|]]; [reflexivity|].
    destruct (gen_for l2 body) as [s2 r].
    now rewrite app_assoc.
Qed.

Lemma gen_for_finishes {A Y} (l : list A) (body : A -> gen Y) :
  (forall a, In a l -> snd (body a) = None) ->
  gen_for l body = (flat_map (fun a => fst (body a)) l, None).
Proof.
  induction l as [|a l IH]; simpl; intros H; [reflexivity|].
  pose proof (H a (or_introl eq_refl)) as Ha.
  destruct (body a) as [s r]; simpl in *; subst r.
  rewrite IH by auto. reflexivity.
Qed.

Lemma gen_for_In {A Y} (l : list A) (body : A -> gen Y) (x : step Y) :
  In x (fst (gen_for l body)) -> exists a, In a l /\ In x (fst (body a)).
Proof.
  induction l as [|a l IH]; simpl; [intros []|].
  destruct (body a) as [s [e|]] eqn:Hb; simpl.
  - intros Hx; exists a; rewrite Hb; auto.
  - destruct (gen_for l body) as [s' r]; simpl in *.
    rewrite in_app_iff; intros [Hx|Hx].
    + exists a; rewrite Hb; auto.
    + destruct (IH Hx) as (a' & Ha' & Hx'); eauto.
Qed.

Lemma yields_In {Y} (g : gen Y) (y : Y) :
  In y (yields g) <-> In (Yielded y) (fst g).
Proof.
  unfold yields. rewrite <- !list_elem_of_In, list_elem_of_omap.
  split.
  - intros ([u|y'] & Hin & Heq); simpl in Heq; [discriminate|].
    injection Heq as ->. exact Hin.
  - intros Hin; exists (Yielded y); auto.
Qed.



(** ** Default users *)

Lemma yield_uncovered_fresh (candidates : list string) (covered : gset string)
      (y : string) :
  In y (yield_uncovered candidates covered) -> lower y ∉ covered.
Proof using.
  revert covered; induction candidates as [|c cs IH]; simpl; intros covered;
    [intros []|].
  destruct (decide (lower c ∈ covered)) as [Hc|Hc]; simpl.
  - apply IH.
  - intros [<-|Hy]; [exact Hc|].
    apply IH in Hy. intros Hin. apply Hy, elem_of_union. now left.
Qed.

Lemma yield_uncovered_NoDup (candidates : list string) (covered : gset string) :
  List.NoDup (map lower (yield_uncovered candidates covered)).
Proof using.
  revert covered; induction candidates as [|c cs IH]; simpl; intros covered;
    [constructor|].
  destruct (decide (lower c ∈ covered)) as [Hc|Hc]; simpl; [apply IH|].
  constructor; [|apply IH].
  rewrite in_map_iff. intros (y & Hy & Hin).
  apply yield_uncovered_fresh in Hin.
  apply Hin, elem_of_union. right. now apply elem_of_singleton.
Qed.

(** When [getpass.getuser()] answers, the enumeration ends without an
    exception, whatever the other sources do, and no two of the names it
    yields are equal up to case. *)
Lemma iter_default_users_with_user (user : string) :
  getpass_getuser env = inr user ->
  raised iter_default_users = None /\
  List.NoDup (map lower (yields iter_default_users)) /\
  exists rest, yields iter_default_users = user :: rest.
Proof using env.
  intros H. unfold iter_default_users, default_candidates. rewrite H.
  unfold yields, raised; cbn [fst snd].
  set (cands := fold_left _ _ _).
  assert (Hc : exists tl, match os_getlogin env with
                          | inl _ => cands
                          | inr login => (cands ++ [login])%list
                          end = user :: tl).
  { subst cands; cbn [fold_left].
    destruct (os_environ env !! "USER"), (os_environ env !! "USERNAME"),
      (os_getlogin env); cbn; eauto. }
  destruct Hc as [tl ->].
  assert (Hy : forall l : list string,
             omap (fun s : step string =>
                     match s with Yielded y => Some y | Probed _ => None end)
                  (map Yielded l) = l).
  { induction l as [|a l IHl]; [reflexivity|]. cbn. now rewrite IHl. }
  rewrite Hy. split; [reflexivity|]. split; [apply yield_uncovered_NoDup|].
  cbn [yield_uncovered].
  destruct (decide (lower user ∈ (∅ : gset string))) as [Hin|_];
    [now apply elem_of_empty in Hin|eauto].
Qed.

(** When [getpass.getuser()] raises, so does the enumeration, before it
    has yielded anything. *)
Lemma iter_default_users_without_user (e : exn) :
  getpass_getuser env = inl e -> iter_default_users = ([], Some e).
Proof.
  intros H. unfold iter_default_users, default_candidates. now rewrite H.
Qed.

(** ** The existence search *)

Lemma flat_map_flat_map {A B C} (f : A -> list B) (g : B -> list C)
      (l : list A) :
  flat_map g (flat_map f l) = flat_map (fun a => flat_map g (f a)) l.
Proof.
  induction l as [|a l IH]; [reflexivity|].
  cbn [flat_map]. now rewrite flat_map_app, IH.
Qed.

Lemma flat_map_map {A B C} (f : A -> B) (g : B -> list C) (l : list A) :
  flat_map g (map f l) = flat_map (fun a => g (f a)) l.
Proof.
  induction l as [|a l IH]; [reflexivity|].
  cbn [flat_map map]. now rewrite IH.
Qed.

Lemma flat_map_ext_In {A B} (f g : A -> list B) (l : list A) :
  (forall a, In a l -> f a = g a) -> flat_map f l = flat_map g l.
Proof.
  induction l as [|a l IH]; intros H; [reflexivity|].
  cbn [flat_map]. rewrite (H a (or_introl eq_refl)), IH; [reflexivity|].
  intros b Hb; apply H; now right.
Qed.

Lemma probe_settled (site user repo : string) :
  settled (candidate_url (site, user, repo)) ->
  probe (template_of site) site user repo = (steps_of (site, user, repo), None).
Proof.
  unfold settled, probe, steps_of, opened, candidate_url, triple_of.
  destruct (urlopen (Str.format (template_of site) user repo)) as [e|];
    [|reflexivity].
  now intros ->.
Qed.

(** One round of the outer loop, for a site that resolves to [c]. *)
Lemma search_site_finishes (repos users : list string) (c : string) :
  Forall (fun x => settled (candidate_url x)) (candidates [c] users repos) ->
  gen_for users (fun user =>
    gen_for repos (fun repo => probe (template_of c) c user repo))
  = (flat_map steps_of (candidates [c] users repos), None).
Proof.
  intros Hs. rewrite List.Forall_forall in Hs.
  unfold candidates in *. cbn [flat_map] in *. rewrite app_nil_r in *.
  rewrite gen_for_finishes.
  - rewrite flat_map_flat_map. f_equal.
    apply flat_map_ext_In; intros u Hu.
    rewrite gen_for_finishes.
    + cbn [fst]. rewrite flat_map_map.
      apply flat_map_ext_In; intros r Hr.
      rewrite probe_settled; [reflexivity|].
      apply Hs, in_flat_map. exists u; split; [exact Hu|].
      now apply in_map.
    + intros r Hr. rewrite probe_settled; [reflexivity|].
      apply Hs, in_flat_map. exists u; split; [exact Hu|].
      now apply in_map.
  - intros u Hu. rewrite gen_for_finishes; [reflexivity|].
    intros r Hr. rewrite probe_settled; [reflexivity|].
    apply Hs, in_flat_map. exists u; split; [exact Hu|].
    now apply in_map.
Qed.

Lemma candidates_cons (c : string) (cs users repos : list string) :
  candidates (c :: cs) users repos =
  (candidates [c] users repos ++ candidates cs users repos)%list.
Proof.
  unfold candidates. cbn [flat_map]. now rewrite app_nil_r.
Qed.

(** The loops over sites that all resolve, with probes that all settle,
    go through every combination. *)
Lemma search_loop_finishes (repos users sites csites : list string) :
  Forall2 (fun site c => resolve_site site = inr c) sites csites ->
  Forall (fun x => settled (candidate_url x)) (candidates csites users repos) ->
  search_loop repos users sites
  = (flat_map steps_of (candidates csites users repos), None).
Proof.
  unfold search_loop.
  induction 1 as [|site c sites csites Hr _ IH]; intros Hs; [reflexivity|].
  rewrite candidates_cons in Hs. apply Forall_app in Hs as [Hs1 Hs2].
  cbn [gen_for]. rewrite Hr, search_site_finishes by exact Hs1.
  rewrite (IH Hs2), (candidates_cons c csites), flat_map_app. reflexivity.
Qed.

(** The loops stop at the first site that does not resolve. *)
Lemma search_loop_unknown (repos users pre post cpre : list string)
      (bad : string) (e : exn) :
  Forall2 (fun site c => resolve_site site = inr c) pre cpre ->
  resolve_site bad = inl e ->
  Forall (fun x => settled (candidate_url x)) (candidates cpre users repos) ->
  search_loop repos users (pre ++ bad :: post)
  = (flat_map steps_of (candidates cpre users repos), Some e).
Proof.
  intros Hpre Hbad Hs. unfold search_loop. rewrite gen_for_app.
  fold (search_loop repos users pre).
  rewrite (search_loop_finishes _ _ _ _ Hpre Hs).
  cbn [gen_for]. rewrite Hbad. now rewrite app_nil_r.
Qed.

(** What is yielded has the site a supplied one resolved to. *)
Lemma search_loop_yields (repos users sites : list string)
      (repo user site : string) :
  In (Yielded (repo, user, site)) (fst (search_loop repos users sites)) ->
  exists site0, In site0 sites /\ resolve_site site0 = inr site.
Proof.
  unfold search_loop. intros H.
  apply gen_for_In in H as (site0 & Hin & H).
  exists site0; split; [exact Hin|].
  destruct (resolve_site site0) as [e|c]; [contradiction|].
  apply gen_for_In in H as (u & _ & H).
  apply gen_for_In in H as (r & _ & H).
  unfold probe in H.
  destruct (urlopen _) as [e'|]; [destruct (is_network_error e')|];
    simpl in H.
  - destruct H as [H|[]]; discriminate.
  - destruct H as [H|[]]; discriminate.
  - destruct H as [H|[H|[]]]; [discriminate|]. congruence.
Qed.

Lemma clone_site_equiv (repo user site k : string) (parent : option string)
      (w : world) :
  resolve_site site = inr k ->
  clone repo user site parent w = clone repo user k parent w.
Proof.
  intros H.
  assert (Hk : resolve_site k = inr k).
  { apply resolve_site_key. now apply resolve_site_inr in H as [Hk _]. }
  unfold clone, bind, lift.
  destruct (parent_of parent w) as [[e|p] w1]; [reflexivity|].
  destruct (os_path_isdir (OsPath.join p repo) w1) as [[e|[]] w2];
    try reflexivity.
  now rewrite H, Hk.
Qed.

Lemma clone_unknown_site (repo user site p : string) (parent : option string)
      (e : exn) (w : world) :
  resolve_site site = inl e ->
  parent_of parent w = (inr p, w) ->
  Fs.isdir (fs w) (OsPath.join p repo) = false ->
  clone repo user site parent w = (inl e, w).
Proof.
  intros H Hp Hd. unfold clone, bind, lift, os_path_isdir.
  now rewrite Hp, Hd, H.
Qed.

(** C5. Site lookup.  The lookup sees a site identifier only through
    [lower]: identifiers with the same lowered form resolve alike, and on
    ASCII identifiers, where [lower] changes 'A'..'Z' only and lowering
    twice is lowering once, the lowered identifier resolves as the
    identifier does.  For every site identifier: when the lookup succeeds,
    the site it settles on is a key of the table, namely the lowered
    identifier or, if that is not a key, the lowered identifier without its
    last dotted suffix, and [clone] and [search] then behave exactly as for
    that key; when neither form is a key, the lookup raises [KeyError]
    (the specification's UnknownSite), which [clone] raises once the
    parent directory and the target path have been checked, and with which
    [search] ends.  "GitHub" and "github.x" settle on "github"; "gitlab"
    is unknown. *)
Theorem site_lookup :
  (forall s1 s2 : string,
      lower s1 = lower s2 -> resolve_site s1 = resolve_site s2) /\
  (forall site : string,
      Str.isascii site = true ->
      lower site = Str.ascii_lower site /\
      resolve_site (lower site) = resolve_site site) /\
  (forall site : string,
      match resolve_site site with
      | inr k =>
          In k (dict_keys URL_TEMPLATES) /\
          (k = lower site \/
           dict_mem URL_TEMPLATES (lower site) = false /\
           k = OsPath.splitext_root (lower site)) /\
          (forall repo user parent w,
              clone repo user site parent w = clone repo user k parent w) /\
          (forall repos users,
              search_loop repos users [site] = search_loop repos users [k])
      | inl e =>
          e = KeyError (lower site) /\
          dict_mem URL_TEMPLATES (lower site) = false /\
          dict_mem URL_TEMPLATES (OsPath.splitext_root (lower site)) = false /\
          (forall repo user parent p w,
              parent_of parent w = (inr p, w) ->
              Fs.isdir (fs w) (OsPath.join p repo) = false ->
              clone repo user site parent w = (inl e, w)) /\
          (forall repos users,
              search_loop repos users [site] = ([], Some e))
      end) /\
  resolve_site "GitHub" = inr "github" /\
  resolve_site "github.x" = inr "github" /\
  resolve_site "github" = inr "github" /\
  template_of "github" = "https://github.com/{user}/{repo}/archive/master.zip" /\
  resolve_site "gitlab" = inl (KeyError "gitlab").
Proof.
  split; [|split; [|split; [|repeat split; reflexivity]]].
  { intros s1 s2 H. unfold resolve_site. now rewrite H. }
  { intros site Ha. split; [now apply lower_on_ascii|].
    unfold resolve_site. now rewrite lower_idem_on_ascii. }
  intros site.
  destruct (resolve_site site) as [e|k] eqn:H.
  - destruct (resolve_site_inl _ _ H) as (-> & H1 & H2).
    repeat split; auto.
    + intros. now apply clone_unknown_site with (p := p).
    + intros. unfold search_loop. cbn [gen_for]. now rewrite H.
  - destruct (resolve_site_inr _ _ H) as (Hk & Hform).
    repeat split.
    + now apply dict_mem_In.
    + exact Hform.
    + intros. now apply clone_site_equiv.
    + intros. unfold search_loop. cbn [gen_for].
      now rewrite H, (resolve_site_key _ Hk).
Qed.


(** C6. Unknown site in a search.  If the sites to search are [pre],
    then [bad], then [post], where the sites of [pre] resolve and [bad]
    resolves neither lowered nor with its suffix stripped (the users being
    obtained and the probes for [pre] settling), then the search goes
    through the combinations of [pre] and ends with [KeyError] for the
    lowered [bad]: [bad] is not skipped and no site of [post] is probed.
    With [pre] empty nothing is probed at all. *)
Theorem search_unknown_site_fails (repos : strs) (users sites : option strs)
        (us pre post cpre : list string) (bad : string) :
  users_list users = inr us ->
  sites_list sites = (pre ++ bad :: post)%list ->
  Forall2 (fun site c => resolve_site site = inr c) pre cpre ->
  dict_mem URL_TEMPLATES (lower bad) = false ->
  dict_mem URL_TEMPLATES (OsPath.splitext_root (lower bad)) = false ->
  Forall (fun x => settled (candidate_url x))
         (candidates cpre us (repos_list repos)) ->
  search repos users sites
  = (flat_map steps_of (candidates cpre us (repos_list repos)),
     Some (KeyError (lower bad))).
Proof.
  intros Hu Hsites Hpre H1 H2 Hs. unfold search. rewrite Hu, Hsites.
  apply search_loop_unknown; auto.
  unfold resolve_site. now rewrite H1, H2.
Qed.

(** C10. The site of a yielded triple.  Every triple [search] yields
    carries the site a supplied identifier resolved to (its lowered form,
    or its lowered form without the dotted suffix), not the identifier as
    supplied; that site is a key of the table, so the lookup at the head
    of [clone] finds it at once, without stripping a suffix. *)
Theorem search_yields_canonical_site (repos : strs) (users sites : option strs)
        (repo user site : string) :
  In (repo, user, site) (yields (search repos users sites)) ->
  In site (dict_keys URL_TEMPLATES) /\
  (exists site0,
      In site0 (sites_list sites) /\ resolve_site site0 = inr site /\
      (site = lower site0 \/ site = OsPath.splitext_root (lower site0))) /\
  dict_mem URL_TEMPLATES (lower site) = true /\
  resolve_site site = inr site.
Proof.
  rewrite yields_In. unfold search.
  destruct (users_list users) as [e|us]; [contradiction|].
  intros H. apply search_loop_yields in H as (site0 & Hin & Hr).
  destruct (resolve_site_inr _ _ Hr) as (Hk & Hform).
  repeat split.
  - now apply dict_mem_In.
  - exists site0. repeat split; auto.
    destruct Hform as [->|[_ ->]]; auto.
  - apply dict_mem_keys in Hk as [->| ->]; reflexivity.
  - now apply resolve_site_key.
Qed.

(** ** The archive fetcher *)

Lemma save_path_of_pure (source_url : string) (save_path : option string)
      (w : world) :
  exists p, save_path_of source_url save_path w = (inr p, w).
Proof.
  unfold save_path_of, bind, os_getcwd, os_path_isdir, ret.
  destruct save_path as [sp|]; cbn.
  - destruct (Fs.isdir (fs w) sp); eauto.
  - destruct (Fs.isdir (fs w) _); eauto.
Qed.

Lemma parent_of_pure (parent : option string) (r : result string)
      (w w' : world) :
  parent_of parent w = (r, w') -> w' = w.
Proof.
  unfold parent_of, bind, os_getcwd, os_path_isdir, ret, raise.
  destruct parent as [p|]; cbn.
  - destruct (Fs.isdir (fs w) p); cbn; congruence.
  - congruence.
Qed.

Lemma isfile_delete (m : gmap string node) (p : string) :
  Fs.isfile (delete (Fs.norm p) m) p = false.
Proof.
  unfold Fs.isfile. destruct (Str.endswith_char p OsPath.sep); [reflexivity|].
  now rewrite lookup_delete_eq.
Qed.

Lemma remove_if_file_run (p : string) (w : world) :
  remove_if_file p w =
  (inr tt,
   if Fs.isfile (fs w) p
   then World (delete (Fs.norm p) (fs w)) (log w ++ [Remove p])%list
   else w).
Proof.
  unfold remove_if_file, bind, os_path_isfile, os_remove, record_call, ret.
  destruct (Fs.isfile (fs w) p) eqn:Hf; cbn; [|reflexivity].
  now rewrite Hf.
Qed.

Lemma remove_if_file_gone (p : string) (w : world) :
  Fs.isfile (fs (snd (remove_if_file p w))) p = false.
Proof.
  rewrite remove_if_file_run; cbn [snd].
  destruct (Fs.isfile (fs w) p) eqn:Hf; cbn [fs]; [apply isfile_delete|exact Hf].
Qed.

(** C7. No overwriting.  If a file already is at the destination
    [download_file] settles on, the call raises [FileExistsError] for that
    path and leaves the world as it was: the file system, hence the file
    and its contents, is unchanged, and no call has been made to the
    outside, so that no transfer has begun. *)
Theorem download_file_never_overwrites (source_url p : string)
        (save_path : option string) (w : world) :
  save_path_of source_url save_path w = (inr p, w) ->
  Fs.isfile (fs w) p = true ->
  download_file source_url save_path w = (inl (FileExistsError p), w).
Proof.
  intros Hp Hf. unfold download_file, bind, os_path_isfile.
  now rewrite Hp, Hf.
Qed.

Lemma download_file_transfer_failed (source_url p : string)
      (save_path : option string) (w : world)
      (m' : gmap string node) (e : exn) :
  save_path_of source_url save_path w = (inr p, w) ->
  Fs.isfile (fs w) p = false ->
  urlretrieve source_url p (fs w) = (m', Some e) ->
  download_file source_url save_path w =
  (inl e,
   if Fs.isfile m' p
   then World (delete (Fs.norm p) m')
              (log w ++ [Urlretrieve source_url p; Remove p])%list
   else World m' (log w ++ [Urlretrieve source_url p])%list).
Proof.
  intros Hp Hf Hu.
  unfold download_file, bind at 1 2. rewrite Hp.
  unfold os_path_isfile at 1. cbn [fs]. rewrite Hf.
  unfold try_except, urllib_urlretrieve, bind at 1 2, record_call.
  cbn [fs log]. rewrite Hu.
  unfold bind, os_path_isfile, os_remove, record_call, bind, ret, raise.
  cbn [fs log].
  destruct (Fs.isfile m' p) eqn:Hf'; cbn [fs log]; rewrite ?Hf';
    [|reflexivity].
  now rewrite <- app_assoc.
Qed.

(** C8. Cleaning up after a failed transfer.  If the destination is
    free and the transfer raises [e], whatever it has done to the file
    system, then [download_file] raises [e], and when it does no file is
    at the destination: a file the transfer left there has been removed,
    and nothing else has been touched. *)
Theorem download_file_cleans_up (source_url p : string)
        (save_path : option string) (w : world)
        (m' : gmap string node) (e : exn) :
  save_path_of source_url save_path w = (inr p, w) ->
  Fs.isfile (fs w) p = false ->
  urlretrieve source_url p (fs w) = (m', Some e) ->
  let r := download_file source_url save_path w in
  fst r = inl e /\
  Fs.isfile (fs (snd r)) p = false /\
  fs (snd r) = (if Fs.isfile m' p then delete (Fs.norm p) m' else m').
Proof.
  intros Hp Hf Hu r. subst r.
  rewrite (download_file_transfer_failed _ _ _ _ _ _ Hp Hf Hu).
  cbn [fst snd].
  destruct (Fs.isfile m' p) eqn:Hf'; cbn [fs];
    repeat split; auto using isfile_delete.
Qed.

(** ** The repository materializer *)

Lemma find_root_step (name : string) (rest : list string) :
  find_root (name :: rest) =
  if rejected name then inl (AssertionError absolute_path_msg)
  else if top_level_dir name then inr (Some name)
  else find_root rest.
Proof.
  cbn [find_root]. unfold rejected, top_level_dir.
  now destruct (Str.truthy name), (Str.startswith name "/").
Qed.

(** The scan fails on a rejected entry that comes before every top-level
    directory entry. *)
Lemma find_root_rejected (pre post : list string) (bad : string) :
  Forall (fun n => rejected n = false /\ top_level_dir n = false) pre ->
  rejected bad = true ->
  find_root (pre ++ bad :: post) = inl (AssertionError absolute_path_msg).
Proof.
  induction 1 as [|n pre [Hn1 Hn2] _ IH]; intros Hb; cbn [app];
    rewrite find_root_step.
  - now rewrite Hb.
  - rewrite Hn1, Hn2. auto.
Qed.

(** The scan finds the first top-level directory entry when no rejected
    entry comes before it, whatever comes after it. *)
Lemma find_root_found (pre post : list string) (root : string) :
  Forall (fun n => rejected n = false /\ top_level_dir n = false) pre ->
  rejected root = false ->
  top_level_dir root = true ->
  find_root (pre ++ root :: post) = inr (Some root).
Proof.
  induction 1 as [|n pre [Hn1 Hn2] _ IH]; intros Hr Ht; cbn [app];
    rewrite find_root_step.
  - now rewrite Hr, Ht.
  - rewrite Hn1, Hn2. auto.
Qed.

(** The scan finds nothing in an archive without rejected entries and
    without top-level directory entries. *)
Lemma find_root_nothing (names : list string) :
  Forall (fun n => rejected n = false /\ top_level_dir n = false) names ->
  find_root names = inr None.
Proof.
  induction 1 as [|n names [Hn1 Hn2] _ IH]; [reflexivity|].
  rewrite find_root_step. now rewrite Hn1, Hn2.
Qed.

(** Without a top-level directory entry the scan never finds a root. *)
Lemma find_root_no_top_level (names : list string) :
  Forall (fun n => top_level_dir n = false) names ->
  find_root names = inr None \/
  find_root names = inl (AssertionError absolute_path_msg).
Proof.
  induction 1 as [|n names Hn _ IH]; [now left|].
  rewrite find_root_step, Hn. destruct (rejected n); auto.
Qed.

(** The only exception of the scan is the failed assertion on an entry. *)
Lemma find_root_inl (names : list string) (e : exn) :
  find_root names = inl e -> e = AssertionError absolute_path_msg.
Proof.
  induction names as [|n names IH]; [discriminate|].
  rewrite find_root_step.
  destruct (rejected n); [now intros [= <-]|].
  destruct (top_level_dir n); [discriminate|exact IH].
Qed.

(** When the scan of the archive fails, for either reason, the assertion
    error is raised, the archive file is removed and nothing else is
    done: nothing is extracted. *)
Lemma clone_from_url_integrity (source_url p zip_path : string)
      (parent : option string) (w w1 : world) (repo : zipfile) (msg : string) :
  parent_of parent w = (inr p, w) ->
  download_file source_url (Some p) w = (inr zip_path, w1) ->
  ZipFile zip_path w1 = (inr repo, w1) ->
  find_root (namelist repo) = inl (AssertionError msg) \/
  find_root (namelist repo) = inr None /\ msg = empty_msg ->
  clone_from_url source_url parent w =
  (inl (AssertionError msg), snd (remove_if_file zip_path w1)).
Proof.
  intros Hp Hd Hz Hscan. unfold clone_from_url, bind at 1 2. rewrite Hp, Hd.
  unfold try_finally, bind at 1. rewrite Hz.
  unfold bind at 1, lift.
  change (f <- os_path_isfile zip_path ;;
          if f then os_remove zip_path else ret tt)
    with (remove_if_file zip_path).
  destruct Hscan as [-> | [-> ->]]; unfold raise;
    now rewrite remove_if_file_run.
Qed.

(** ** The clone orchestrator *)

(** C4, as the program has it.  If the parent is not given or is a
    directory, and [parent/repo] is a directory, [clone] raises
    [IsADirectoryError] for that path and leaves the world as it was: no
    download, no extraction, no rename, no call to the outside at all. *)
Theorem clone_refuses_existing_directory (repo user site p : string)
        (parent : option string) (w : world) :
  parent_of parent w = (inr p, w) ->
  Fs.isdir (fs w) (OsPath.join p repo) = true ->
  clone repo user site parent w
  = (inl (IsADirectoryError (OsPath.join p repo)), w).
Proof.
  intros Hp Hd. unfold clone, bind, os_path_isdir. now rewrite Hp, Hd.
Qed.

(** ** The URLs of the table *)

Lemma rfind_from_app (a b : string) (c : ascii) (i last : Z) :
  Str.rfind_from (a ++ b) c i last =
  Str.rfind_from b c (i + Z.of_nat (String.length a)) (Str.rfind_from a c i last).
Proof.
  revert i last; induction a as [|x a IH]; intros i last.
  - change (EmptyString ++ b) with b. cbn. now rewrite Z.add_0_r.
  - change (String x a ++ b) with (String x (a ++ b)).
    cbn [Str.rfind_from String.length]. rewrite IH. f_equal. lia.
Qed.

Lemma rfind_from_absent (t : string) (c : ascii) (i last : Z) :
  Str.count_char t c = 0%nat -> Str.rfind_from t c i last = last.
Proof.
  revert i; induction t as [|x t IH]; intros i; cbn; [reflexivity|].
  destruct (Ascii.eqb x c); [discriminate|]. cbn. apply IH.
Qed.

Lemma length_app (a b : string) :
  String.length (a ++ b) = (String.length a + String.length b)%nat.
Proof.
  induction a as [|x a IH]; [reflexivity|].
  change (String x a ++ b) with (String x (a ++ b)).
  cbn [String.length]. now rewrite IH.
Qed.

Lemma append_assoc (a b c : string) : (a ++ b) ++ c = a ++ (b ++ c).
Proof.
  induction a as [|x a IH]; [reflexivity|].
  change (String x a ++ b) with (String x (a ++ b)).
  change (String x (a ++ b) ++ c) with (String x ((a ++ b) ++ c)).
  now rewrite IH.
Qed.

Lemma substring_skip (a b : string) (m : nat) :
  String.substring (String.length a) m (a ++ b) = String.substring 0 m b.
Proof.
  induction a as [|x a IH]; [reflexivity|].
  change (String x a ++ b) with (String x (a ++ b)). exact IH.
Qed.

Lemma substring_all (t : string) :
  String.substring 0 (String.length t) t = t.
Proof. induction t as [|x t IH]; cbn; [reflexivity|now rewrite IH]. Qed.

(** [os.path.basename] returns what follows the last separator. *)
Lemma basename_after_sep (a t : string) :
  Str.count_char t OsPath.sep = 0%nat ->
  OsPath.basename (a ++ String OsPath.sep t) = t.
Proof.
  intros Ht. unfold OsPath.basename, Str.rfind, Str.drop.
  rewrite rfind_from_app. cbn [Str.rfind_from].
  rewrite Ascii.eqb_refl, (rfind_from_absent _ _ _ _ Ht).
  replace (Z.to_nat (0 + Z.of_nat (String.length a) + 1))
    with (String.length (a ++ String OsPath.sep EmptyString)).
  2:{ rewrite length_app. cbn. lia. }
  replace (a ++ String OsPath.sep t)
    with ((a ++ String OsPath.sep EmptyString) ++ t).
  2:{ now rewrite append_assoc. }
  rewrite substring_skip, length_app.
  replace (String.length (a ++ String OsPath.sep EmptyString) + String.length t
           - String.length (a ++ String OsPath.sep EmptyString))%nat
    with (String.length t) by lia.
  apply substring_all.
Qed.

Lemma format_github (user repo : string) :
  Str.format (template_of "github") user repo
  = "https://github.com/" ++ user ++ "/" ++ repo ++ "/archive/master.zip".
Proof. reflexivity. Qed.

Lemma format_bitbucket (user repo : string) :
  Str.format (template_of "bitbucket") user repo
  = "https://bitbucket.org/" ++ user ++ "/" ++ repo ++ "/get/master.zip".
Proof. reflexivity. Qed.

Lemma basename_candidate_url (site user repo : string) :
  dict_mem URL_TEMPLATES site = true ->
  OsPath.basename (Str.format (template_of site) user repo) = "master.zip".
Proof.
  intros H. apply dict_mem_keys in H as [->| ->].
  - rewrite format_bitbucket.
    replace ("https://bitbucket.org/" ++ user ++ "/" ++ repo ++ "/get/master.zip")
      with (("https://bitbucket.org/" ++ user ++ "/" ++ repo ++ "/get")
              ++ String OsPath.sep "master.zip").
    + now apply basename_after_sep.
    + now rewrite !append_assoc.
  - rewrite format_github.
    replace ("https://github.com/" ++ user ++ "/" ++ repo ++ "/archive/master.zip")
      with (("https://github.com/" ++ user ++ "/" ++ repo ++ "/archive")
              ++ String OsPath.sep "master.zip").
    + now apply basename_after_sep.
    + now rewrite !append_assoc.
Qed.

(** X1. The URL of a candidate.  For every user and repo, the URL built
    from the template of a site of the table is the template with the two
    fields replaced, the values being inserted as they are; whatever the
    user and the repo, its last path segment, under which the archive is
    saved, is [master.zip]. *)
Theorem candidate_url_shape (user repo : string) :
  Str.format (template_of "github") user repo
  = "https://github.com/" ++ user ++ "/" ++ repo ++ "/archive/master.zip" /\
  Str.format (template_of "bitbucket") user repo
  = "https://bitbucket.org/" ++ user ++ "/" ++ repo ++ "/get/master.zip" /\
  forall site, In site (dict_keys URL_TEMPLATES) ->
    OsPath.basename (Str.format (template_of site) user repo) = "master.zip".
Proof.
  split; [apply format_github|]. split; [apply format_bitbucket|].
  intros site [<-|[<-|[]]]; now apply basename_candidate_url.
Qed.

(** ** The scan of the archive, characterised *)

Lemma find_root_some_inv (names : list string) (root : string) :
  find_root names = inr (Some root) ->
  exists pre post,
    names = (pre ++ root :: post)%list /\
    Forall (fun n => rejected n = false /\ top_level_dir n = false) pre /\
    rejected root = false /\ top_level_dir root = true.
Proof.
  induction names as [|n names IH]; [discriminate|].
  rewrite find_root_step.
  destruct (rejected n) eqn:Hr; [discriminate|].
  destruct (top_level_dir n) eqn:Ht.
  - intros [= <-]. exists [], names. repeat split; auto.
  - intros H. destruct (IH H) as (pre & post & -> & Hpre & Hroot).
    destruct Hroot as [Hr' Ht'].
    exists (n :: pre), post. repeat split; auto.
Qed.

(** X2. What the scan of the archive finds.  The scan returns [root]
    exactly when [root] is the first top-level directory entry of the list
    (one separator, at the end), is neither empty nor absolute, and no
    entry before it is empty or absolute; entries after it play no part. *)
Theorem find_root_first_top_level (names : list string) (root : string) :
  find_root names = inr (Some root) <->
  exists pre post,
    names = (pre ++ root :: post)%list /\
    Forall (fun n => rejected n = false /\ top_level_dir n = false) pre /\
    rejected root = false /\ top_level_dir root = true.
Proof.
  split; [apply find_root_some_inv|].
  intros (pre & post & -> & Hpre & Hr & Ht). now apply find_root_found.
Qed.

(** ** Default users, characterised *)

Lemma yields_map_Yielded {Y} (l : list Y) (r : option exn) :
  yields (map Yielded l, r) = l.
Proof.
  unfold yields; cbn [fst].
  induction l as [|a l IH]; [reflexivity|]. cbn. now rewrite IH.
Qed.

Lemma yield_uncovered_In (candidates : list string) (covered : gset string)
      (y : string) :
  In y (yield_uncovered candidates covered) -> In y candidates.
Proof.
  revert covered; induction candidates as [|c cs IH]; intros covered;
    cbn [yield_uncovered]; [intros []|].
  destruct (decide (lower c ∈ covered)).
  - intros H. right. eapply IH, H.
  - intros [<-|H]; [now left|]. right. eapply IH, H.
Qed.

Lemma yield_uncovered_covers (candidates : list string) (covered : gset string)
      (c : string) :
  In c candidates ->
  lower c ∈ covered \/
  exists y, In y (yield_uncovered candidates covered) /\ lower y = lower c.
Proof.
  revert covered; induction candidates as [|x cs IH]; intros covered;
    [intros []|].
  cbn [yield_uncovered]. intros [->|Hin].
  - destruct (decide (lower c ∈ covered)); [now left|].
    right. exists c. split; [now left|reflexivity].
  - destruct (decide (lower x ∈ covered)) as [Hx|Hx].
    + apply IH, Hin.
    + destruct (IH (covered ∪ {[lower x]}) Hin) as [Hc|(y & Hy & Heq)].
      * apply elem_of_union in Hc as [Hc|Hc]; [now left|].
        apply elem_of_singleton in Hc. right. exists x. split; [now left|auto].
      * right. exists y. split; [now right|exact Heq].
Qed.

Lemma yield_uncovered_sublist (candidates : list string) (covered : gset string) :
  sublist (yield_uncovered candidates covered) candidates.
Proof.
  revert covered; induction candidates as [|c cs IH]; intros covered;
    cbn [yield_uncovered]; [constructor|].
  destruct (decide (lower c ∈ covered)).
  - apply sublist_cons, IH.
  - apply sublist_skip, IH.
Qed.

Lemma default_candidates_sources (candidates : list string) (name : string) :
  default_candidates = inr candidates ->
  In name candidates <-> identity_source name.
Proof.
  unfold default_candidates, identity_source.
  destruct (getpass_getuser env) as [e|user]; [discriminate|].
  cbn [fold_left].
  destruct (os_environ env !! "USER") as [u|],
           (os_environ env !! "USERNAME") as [v|],
           (os_getlogin env) as [e|l];
    intros [= <-]; cbn; split; intros H;
    repeat match goal with
           | H : _ \/ _ |- _ => destruct H as [H|H]
           | H : False |- _ => destruct H
           | H : inr _ = inr _ |- _ => injection H as H
           | H : inl _ = inr _ |- _ => discriminate H
           | H : Some _ = Some _ |- _ => injection H as H
           | H : None = Some _ |- _ => discriminate H
           end; subst; auto 10.
Qed.

Lemma firstn_length_app {A} (l l' : list A) : firstn (length l) (l ++ l') = l.
Proof. induction l as [|a l IH]; [reflexivity|]. cbn. now rewrite IH. Qed.

Lemma first_of_case_covered (pre rest : list string) (covered : gset string)
      (c : string) :
  (forall x, x ∈ covered <-> exists m, In m pre /\ lower m = x) ->
  first_of_case (pre ++ c :: rest) (length pre) c = true <-> lower c ∉ covered.
Proof.
  intros Hcov. unfold first_of_case. rewrite firstn_length_app.
  rewrite List.forallb_forall. split.
  - intros Hall Hin. apply Hcov in Hin as (m & Hm & Heq).
    specialize (Hall m Hm). rewrite <- String.eqb_eq in Heq.
    now rewrite Heq in Hall.
  - intros Hnot m Hm.
    destruct (String.eqb_spec (lower m) (lower c)) as [Heq|]; [|reflexivity].
    exfalso. apply Hnot, Hcov. now exists m.
Qed.

(** The loop yields the names that are the first of their case. *)
Lemma yield_uncovered_first (pre cs : list string) (covered : gset string) :
  (forall x, x ∈ covered <-> exists m, In m pre /\ lower m = x) ->
  yield_uncovered cs covered =
  map snd
    (List.filter (fun p => first_of_case (pre ++ cs) (fst p) (snd p))
                 (combine (seq (length pre) (length cs)) cs)).
Proof.
  revert pre covered. induction cs as [|c cs IH]; intros pre covered Hcov;
    [reflexivity|].
  cbn [yield_uncovered length seq combine List.filter fst snd].
  pose proof (first_of_case_covered pre cs covered c Hcov) as Hfirst.
  assert (Hnext : (pre ++ c :: cs = (pre ++ [c]) ++ cs)%list)
    by now rewrite <- app_assoc.
  assert (Hlen : S (length pre) = length (pre ++ [c])%list)
    by (rewrite List.length_app; cbn; lia).
  destruct (decide (lower c ∈ covered)) as [Hin|Hout].
  - destruct (first_of_case (pre ++ c :: cs) (length pre) c) eqn:Hf.
    { exfalso. now apply Hfirst. }
    rewrite Hnext, Hlen. apply IH.
    intros x. rewrite Hcov. split.
    + intros (m & Hm & Heq). exists m. rewrite in_app_iff. auto.
    + intros (m & Hm & Heq). apply in_app_iff in Hm as [Hm|[<-|[]]].
      * now exists m.
      * subst x. now apply Hcov.
  - destruct (first_of_case (pre ++ c :: cs) (length pre) c) eqn:Hf.
    2:{ exfalso. apply Hfirst in Hout. congruence. }
    cbn [map snd]. f_equal.
    rewrite Hnext, Hlen. apply IH.
    intros x. rewrite elem_of_union, elem_of_singleton, Hcov. split.
    + intros [(m & Hm & Heq)| ->].
      * exists m. rewrite in_app_iff. auto.
      * exists c. rewrite in_app_iff. cbn. auto.
    + intros (m & Hm & Heq). apply in_app_iff in Hm as [Hm|[<-|[]]].
      * left. now exists m.
      * now right.
Qed.

Lemma default_candidates_in_order (user : string) :
  getpass_getuser env = inr user ->
  default_candidates = inr (sources_in_order user).
Proof using env.
  intros Hu. unfold default_candidates, sources_in_order. rewrite Hu.
  cbn [fold_left].
  now destruct (os_environ env !! "USER"), (os_environ env !! "USERNAME"),
    (os_getlogin env).
Qed.

(** X3. The default users, when [getpass.getuser()] answers.  The
    enumeration ends without an exception.  Of the names the sources give,
    taken in the order effective user, home directory, USER, USERNAME,
    login name (sources that do not answer being left out), it yields, in
    that order, exactly those that are the first of their case, case being
    compared through [lower].  So every yielded name comes from a source,
    every name a source gives is yielded up to case, no two yielded names
    are equal up to case, and the name of [getpass.getuser()] is yielded
    first. *)
Theorem iter_default_users_sources (user : string) :
  getpass_getuser env = inr user ->
  raised iter_default_users = None /\
  yields iter_default_users = first_occurrences (sources_in_order user) /\
  List.NoDup (map lower (yields iter_default_users)) /\
  (forall y, In y (yields iter_default_users) -> identity_source y) /\
  (forall name, identity_source name ->
     exists y, In y (yields iter_default_users) /\ lower y = lower name) /\
  sublist (yields iter_default_users) (sources_in_order user) /\
  (exists rest, yields iter_default_users = user :: rest).
Proof using env.
  intros Hu.
  pose proof (iter_default_users_with_user _ Hu) as (_ & _ & Hfirst).
  pose proof (default_candidates_in_order _ Hu) as Hc.
  revert Hfirst. unfold iter_default_users. rewrite Hc.
  rewrite yields_map_Yielded. unfold raised; cbn [snd]. intros Hfirst.
  split; [reflexivity|].
  split.
  { unfold first_occurrences.
    apply (yield_uncovered_first [] (sources_in_order user) ∅).
    intros x. split; [intros Hin; now apply elem_of_empty in Hin|].
    intros (m & [] & _). }
  split; [apply yield_uncovered_NoDup|].
  split; [|split; [|split; [|exact Hfirst]]].
  - intros y Hy. apply (default_candidates_sources _ _ Hc).
    eapply yield_uncovered_In, Hy.
  - intros name Hn. apply (default_candidates_sources _ _ Hc) in Hn.
    destruct (yield_uncovered_covers _ ∅ _ Hn) as [Hin|H]; [|exact H].
    now apply elem_of_empty in Hin.
  - apply yield_uncovered_sublist.
Qed.

(** ** The calls a computation makes *)

Lemma grows_refl (P : call -> Prop) (w : world) : grows P w w.
Proof. exists []. split; [now rewrite app_nil_r|constructor]. Qed.

Lemma grows_trans (P : call -> Prop) (w1 w2 w3 : world) :
  grows P w1 w2 -> grows P w2 w3 -> grows P w1 w3.
Proof.
  intros (d1 & H1 & F1) (d2 & H2 & F2). exists (d1 ++ d2)%list.
  split; [now rewrite H2, H1, app_assoc|].
  apply Forall_app. now split.
Qed.

Lemma grows_mono (P Q : call -> Prop) (w w' : world) :
  (forall c, P c -> Q c) -> grows P w w' -> grows Q w w'.
Proof.
  intros HPQ (d & H & F). exists d. split; [exact H|].
  eapply Forall_impl; eauto.
Qed.

Lemma grows_same_log (P : call -> Prop) (w : world) (m : gmap string node) :
  grows P w (World m (log w)).
Proof. exists []. split; [cbn; now rewrite app_nil_r|constructor]. Qed.

Lemma calls_only_ret {A} (P : call -> Prop) (a : A) : calls_only P (ret a).
Proof. intros w. apply grows_refl. Qed.

Lemma calls_only_raise {A} (P : call -> Prop) (e : exn) :
  calls_only P (@raise A e).
Proof. intros w. apply grows_refl. Qed.

Lemma calls_only_lift {A} (P : call -> Prop) (r : result A) :
  calls_only P (lift r).
Proof. intros w. apply grows_refl. Qed.

Lemma calls_only_isdir (P : call -> Prop) (p : string) :
  calls_only P (os_path_isdir p).
Proof. intros w. apply grows_refl. Qed.

Lemma calls_only_isfile (P : call -> Prop) (p : string) :
  calls_only P (os_path_isfile p).
Proof. intros w. apply grows_refl. Qed.

Lemma calls_only_bind_post {A B} (P : call -> Prop) (Q : A -> Prop)
      (m : M A) (k : A -> M B) :
  calls_only P m ->
  (forall w a w', m w = (inr a, w') -> Q a) ->
  (forall a, Q a -> calls_only P (k a)) ->
  calls_only P (bind m k).
Proof.
  intros Hm HQ Hk w. unfold bind. specialize (Hm w).
  destruct (m w) as [[e|a] w1] eqn:Hmw; cbn [snd] in *; [exact Hm|].
  eapply grows_trans; [exact Hm|]. apply Hk. eapply HQ, Hmw.
Qed.

Lemma calls_only_bind {A B} (P : call -> Prop) (m : M A) (k : A -> M B) :
  calls_only P m -> (forall a, calls_only P (k a)) -> calls_only P (bind m k).
Proof.
  intros Hm Hk. apply calls_only_bind_post with (Q := fun _ => True); auto.
Qed.

Lemma calls_only_try_except {A} (P : call -> Prop) (body : M A)
      (handler : exn -> M A) :
  calls_only P body -> (forall e, calls_only P (handler e)) ->
  calls_only P (try_except body handler).
Proof.
  intros Hb Hh w. unfold try_except. specialize (Hb w).
  destruct (body w) as [[e|a] w1]; cbn [snd] in *; [|exact Hb].
  eapply grows_trans; [exact Hb|apply Hh].
Qed.

Lemma calls_only_try_finally {A} (P : call -> Prop) (body : M A)
      (cleanup : M unit) :
  calls_only P body -> calls_only P cleanup ->
  calls_only P (try_finally body cleanup).
Proof.
  intros Hb Hc w. unfold try_finally. specialize (Hb w).
  destruct (body w) as [r w1]; cbn [snd] in *. specialize (Hc w1).
  destruct (cleanup w1) as [[e|u] w2]; cbn [snd] in *;
    eapply grows_trans; eauto.
Qed.

Lemma calls_only_record (P : call -> Prop) (c : call) :
  P c -> calls_only P (record_call c).
Proof.
  intros Hc w. exists [c]. split; [reflexivity|]. now repeat constructor.
Qed.

Lemma calls_only_remove (P : call -> Prop) (p : string) :
  P (Remove p) -> calls_only P (os_remove p).
Proof.
  intros Hp. unfold os_remove. apply calls_only_bind.
  - now apply calls_only_record.
  - intros _ w. destruct (Fs.isfile (fs w) p); cbn [snd];
      [apply grows_same_log|apply grows_refl].
Qed.

Lemma calls_only_rename (P : call -> Prop) (src dst : string) :
  P (Rename src dst) -> calls_only P (os_rename src dst).
Proof.
  intros Hp. unfold os_rename. apply calls_only_bind.
  - now apply calls_only_record.
  - intros _ w. destruct (Fs.rename (fs w) src dst); cbn [snd];
      [apply grows_refl|apply grows_same_log].
Qed.

Lemma calls_only_urlretrieve (P : call -> Prop) (url path : string) :
  P (Urlretrieve url path) -> calls_only P (urllib_urlretrieve url path).
Proof.
  intros Hp. unfold urllib_urlretrieve. apply calls_only_bind.
  - now apply calls_only_record.
  - intros _ w. destruct (urlretrieve url path (fs w)) as [m [e|]];
      cbn [snd]; apply grows_same_log.
Qed.

Lemma calls_only_extractall (P : call -> Prop) (repo : zipfile) (parent : string) :
  P (Extractall (zip_file_path repo) parent) -> calls_only P (extractall repo parent).
Proof.
  intros Hp. unfold extractall. apply calls_only_bind.
  - now apply calls_only_record.
  - intros _ w. destruct (zip_extractall (zip_data repo) parent (fs w)) as [m [e|]];
      cbn [snd]; apply grows_same_log.
Qed.

Lemma calls_only_ZipFile (P : call -> Prop) (zip_path : string) :
  calls_only P (ZipFile zip_path).
Proof.
  intros w. unfold ZipFile.
  destruct (fs w !! Fs.norm zip_path) as [[data|]|]; cbn [snd];
    try apply grows_refl.
  destruct (zip_read data); apply grows_refl.
Qed.

Lemma ZipFile_path (zip_path : string) (w w' : world) (repo : zipfile) :
  ZipFile zip_path w = (inr repo, w') -> zip_file_path repo = zip_path.
Proof.
  unfold ZipFile.
  destruct (fs w !! Fs.norm zip_path) as [[data|]|]; try discriminate.
  destruct (zip_read data); [discriminate|]. now intros [= <- _].
Qed.

Lemma calls_only_remove_if_file (P : call -> Prop) (p : string) :
  P (Remove p) -> calls_only P (remove_if_file p).
Proof.
  intros Hp. unfold remove_if_file. apply calls_only_bind.
  - apply calls_only_isfile.
  - intros []; [now apply calls_only_remove|apply calls_only_ret].
Qed.

(** [download_file] returns the destination it settled on. *)
Lemma download_file_returns (source_url q : string) (save_path : option string)
      (w w1 : world) :
  download_file source_url save_path w = (inr q, w1) ->
  save_path_of source_url save_path w = (inr q, w).
Proof.
  destruct (save_path_of_pure source_url save_path w) as [p Hp].
  unfold download_file, bind at 1 2. rewrite Hp.
  unfold os_path_isfile at 1.
  destruct (Fs.isfile (fs w) p); [discriminate|].
  unfold try_except, bind at 1.
  destruct (urllib_urlretrieve source_url p w) as [[e|u] w2].
  - unfold bind, os_path_isfile, raise.
    destruct (Fs.isfile (fs w2) p); [|discriminate].
    destruct (os_remove p w2) as [[e'|u'] w3]; discriminate.
  - unfold ret. now intros [= <- _].
Qed.

Lemma download_file_calls (source_url p : string) (save_path : option string)
      (w : world) :
  save_path_of source_url save_path w = (inr p, w) ->
  grows (fun c => c = Urlretrieve source_url p \/ c = Remove p)
        w (snd (download_file source_url save_path w)).
Proof.
  intros Hp. unfold download_file, bind at 1. rewrite Hp.
  match goal with |- grows ?P w (snd (?rest w)) =>
    assert (Hrest : calls_only P rest); [|apply Hrest] end.
  apply calls_only_bind; [apply calls_only_isfile|].
  intros []; [apply calls_only_raise|].
  apply calls_only_try_except.
  - apply calls_only_bind; [apply calls_only_urlretrieve; now left|].
    intros _. apply calls_only_ret.
  - intros e. apply calls_only_bind; [apply calls_only_isfile|].
    intros f. apply calls_only_bind; [|intros _; apply calls_only_raise].
    destruct f; [apply calls_only_remove; now right|apply calls_only_ret].
Qed.

Lemma clone_from_url_calls (source_url p zip_path : string)
      (parent : option string) (w : world) :
  parent_of parent w = (inr p, w) ->
  save_path_of source_url (Some p) w = (inr zip_path, w) ->
  grows (materializer_call source_url zip_path p)
        w (snd (clone_from_url source_url parent w)).
Proof.
  intros Hp Hz. unfold clone_from_url, bind at 1 2. rewrite Hp.
  pose proof (download_file_calls _ _ _ _ Hz) as Hd.
  destruct (download_file source_url (Some p) w) as [[e|q] w1] eqn:Hdl;
    cbn [snd] in *.
  { eapply grows_mono; [|exact Hd]. intros c [->| ->]; cbn; auto. }
  apply download_file_returns in Hdl. rewrite Hz in Hdl.
  injection Hdl as <-.
  eapply grows_trans.
  { eapply grows_mono; [|exact Hd]. intros c [->| ->]; cbn; auto. }
  match goal with |- grows ?P w1 (snd (?rest w1)) =>
    assert (Hrest : calls_only P rest); [|apply Hrest] end.
  apply calls_only_try_finally.
  - apply calls_only_bind_post
      with (Q := fun repo => zip_file_path repo = zip_path).
    + apply calls_only_ZipFile.
    + intros w0 repo w0'. apply ZipFile_path.
    + intros repo Hrepo. apply calls_only_bind; [apply calls_only_lift|].
      intros [root|]; [|apply calls_only_raise].
      apply calls_only_bind; [apply calls_only_isdir|].
      intros []; [apply calls_only_raise|].
      apply calls_only_bind.
      * apply calls_only_extractall. rewrite Hrepo. now cbn.
      * intros _. apply calls_only_bind; [apply calls_only_isdir|].
        intros []; [apply calls_only_ret|apply calls_only_raise].
  - apply calls_only_bind; [apply calls_only_isfile|].
    intros []; [apply calls_only_remove; now cbn|apply calls_only_ret].
Qed.

(** X4. What a materialization touches.  With the parent settled as [p]
    and the archive's destination as [zip_path], every call
    [clone_from_url] makes, on whatever path it takes, is the transfer of
    the source URL to [zip_path], the extraction of [zip_path] into [p], or
    the removal of [zip_path]; it never renames anything. *)
Theorem clone_from_url_touches (source_url p zip_path : string)
        (parent : option string) (w : world) :
  parent_of parent w = (inr p, w) ->
  save_path_of source_url (Some p) w = (inr zip_path, w) ->
  grows (materializer_call source_url zip_path p)
        w (snd (clone_from_url source_url parent w)).
Proof. apply clone_from_url_calls. Qed.

Lemma save_path_in_dir (source_url p : string) (w : world) :
  Fs.isdir (fs w) p = true ->
  save_path_of source_url (Some p) w
  = (inr (OsPath.join p (OsPath.basename source_url)), w).
Proof.
  intros H. unfold save_path_of, bind, ret, os_path_isdir. now rewrite H.
Qed.

(** X5. What a clone touches.  With the parent settled as an existing
    directory [p], every call [clone] makes, on whatever path it takes, is
    the transfer of the URL built for the site its argument resolves to,
    saved as [p/master.zip], the extraction of that file into [p], its
    removal, or a rename onto [p/repo]: nothing else is fetched, removed or
    renamed. *)
Theorem clone_touches (repo user site p : string) (parent : option string)
        (w : world) :
  parent_of parent w = (inr p, w) ->
  Fs.isdir (fs w) p = true ->
  grows (clone_call repo user site p) w (snd (clone repo user site parent w)).
Proof.
  intros Hp Hd. unfold clone, bind at 1 2. rewrite Hp.
  unfold os_path_isdir at 1.
  destruct (Fs.isdir (fs w) (OsPath.join p repo)); [apply grows_refl|].
  unfold bind at 1, lift.
  destruct (resolve_site site) as [e|k] eqn:Hk; [apply grows_refl|].
  set (url := Str.format (template_of k) user repo).
  assert (Hzip : save_path_of url (Some p) w
                 = (inr (OsPath.join p "master.zip"), w)).
  { rewrite save_path_in_dir by exact Hd. unfold url.
    rewrite basename_candidate_url; [reflexivity|].
    now apply resolve_site_inr in Hk as [Hk _]. }
  assert (Hp' : parent_of (Some p) w = (inr p, w)).
  { unfold parent_of, bind, os_path_isdir. now rewrite Hd. }
  pose proof (clone_from_url_calls _ _ _ _ _ Hp' Hzip) as Hc.
  assert (Hmono : forall c,
             materializer_call url (OsPath.join p "master.zip") p c ->
             clone_call repo user site p c).
  { intros [u q|z q|s d|q]; cbn; [|auto|intros []|auto].
    intros [-> ->]. split; [|reflexivity]. exists k. now split. }
  unfold bind at 1.
  destruct (clone_from_url url (Some p) w) as [[e|dp] w1]; cbn [snd] in *.
  { eapply grows_mono; eauto. }
  eapply grows_trans; [eapply grows_mono; eauto|].
  match goal with |- grows ?P w1 (snd (?rest w1)) =>
    assert (Hrest : calls_only P rest); [|apply Hrest] end.
  apply calls_only_bind; [apply calls_only_rename; now cbn|].
  intros _. apply calls_only_bind; [apply calls_only_isdir|].
  intros []; [apply calls_only_ret|apply calls_only_raise].
Qed.

(** ** Outcomes of the fetcher, the materializer and the clone *)

Lemma ZipFile_pure (zip_path : string) (r : result zipfile) (w w' : world) :
  ZipFile zip_path w = (r, w') -> w' = w.
Proof.
  unfold ZipFile.
  destruct (fs w !! Fs.norm zip_path) as [[data|]|]; try congruence.
  destruct (zip_read data); congruence.
Qed.

Lemma isdir_remove_if_file (p q : string) (w : world) :
  Fs.isdir (fs (snd (remove_if_file p w))) q = Fs.isdir (fs w) q.
Proof.
  rewrite remove_if_file_run; cbn [snd].
  destruct (Fs.isfile (fs w) p) eqn:Hf; [|reflexivity].
  cbn [fs]. unfold Fs.isdir, Fs.isfile in *.
  destruct (Str.endswith_char p OsPath.sep); [discriminate|].
  destruct (decide (Fs.norm q = Fs.norm p)) as [->|Hne].
  - rewrite lookup_delete_eq.
    destruct (fs w !! Fs.norm p) as [[data|]|]; congruence.
  - now rewrite lookup_delete_ne by congruence.
Qed.

(** X6. A successful fetch.  [download_file] returns a path only if it
    is the destination it settled on, no file was there before, and the
    transfer ended without an exception; the transfer is then the only
    call made and the file system is as the transfer left it. *)
Theorem download_file_success (source_url q : string)
        (save_path : option string) (w w1 : world) :
  download_file source_url save_path w = (inr q, w1) ->
  save_path_of source_url save_path w = (inr q, w) /\
  Fs.isfile (fs w) q = false /\
  exists m, urlretrieve source_url q (fs w) = (m, None) /\
            w1 = World m (log w ++ [Urlretrieve source_url q])%list.
Proof.
  destruct (save_path_of_pure source_url save_path w) as [p Hp].
  unfold download_file, bind at 1 2. rewrite Hp.
  unfold os_path_isfile at 1.
  destruct (Fs.isfile (fs w) p) eqn:Hf; [discriminate|].
  unfold try_except, bind at 1, urllib_urlretrieve, bind at 1, record_call.
  cbn [fs log].
  destruct (urlretrieve source_url p (fs w)) as [m [e|]] eqn:Hu.
  - unfold bind, os_path_isfile, raise. cbn [fs].
    destruct (Fs.isfile m p); [|discriminate].
    match goal with |- context [os_remove p ?w2] =>
      destruct (os_remove p w2) as [[e'|u'] w3] end; discriminate.
  - unfold ret. intros [= <- <-]. repeat split; auto. now exists m.
Qed.

(** What [clone_from_url] does once the archive is open and its root is
    found. *)
Lemma clone_from_url_root (source_url p zip_path root : string)
      (parent : option string) (w w1 : world) (repo : zipfile) :
  parent_of parent w = (inr p, w) ->
  download_file source_url (Some p) w = (inr zip_path, w1) ->
  ZipFile zip_path w1 = (inr repo, w1) ->
  find_root (namelist repo) = inr (Some root) ->
  clone_from_url source_url parent w =
  if Fs.isdir (fs w1) (OsPath.join p root)
  then (inl (IsADirectoryError (OsPath.join p root)),
        snd (remove_if_file zip_path w1))
  else
    match zip_extractall (zip_data repo) p (fs w1) with
    | (m, r) =>
        (match r with
         | Some e => inl e
         | None => if Fs.isdir m (OsPath.join p root)
                   then inr (OsPath.join p root)
                   else inl (NotADirectoryError (OsPath.join p root))
         end,
         snd (remove_if_file zip_path
                (World m (log w1 ++ [Extractall zip_path p])%list)))
    end.
Proof.
  intros Hp Hd Hz Hroot. unfold clone_from_url, bind at 1 2. rewrite Hp, Hd.
  pose proof (ZipFile_path _ _ _ _ Hz) as Hpath.
  unfold try_finally, bind at 1. rewrite Hz.
  unfold bind at 1, lift. rewrite Hroot.
  change (f <- os_path_isfile zip_path ;;
          if f then os_remove zip_path else ret tt)
    with (remove_if_file zip_path).
  unfold bind at 1, os_path_isdir at 1.
  destruct (Fs.isdir (fs w1) (OsPath.join p root)).
  { unfold raise. now rewrite remove_if_file_run. }
  unfold bind at 1, extractall, bind at 1, record_call. cbn [fs log].
  rewrite Hpath.
  destruct (zip_extractall (zip_data repo) p (fs w1)) as [m [e|]].
  { now rewrite remove_if_file_run. }
  unfold bind, os_path_isdir. cbn [fs].
  destruct (Fs.isdir m (OsPath.join p root)); cbn [negb]; unfold ret, raise;
    now rewrite remove_if_file_run.
Qed.

(** The world in which the [finally] block of [clone_from_url] runs: the
    one the download left, or, when the body got as far as the extraction,
    the one the extraction left, with its call logged. *)
Lemma clone_from_url_cleanup (source_url p zip_path : string)
      (parent : option string) (w w1 : world) :
  parent_of parent w = (inr p, w) ->
  download_file source_url (Some p) w = (inr zip_path, w1) ->
  exists (r : result string) (w2 : world),
    clone_from_url source_url parent w
    = (r, snd (remove_if_file zip_path w2)) /\
    (w2 = w1 \/
     exists repo m x,
       ZipFile zip_path w1 = (inr repo, w1) /\
       zip_extractall (zip_data repo) p (fs w1) = (m, x) /\
       w2 = World m (log w1 ++ [Extractall zip_path p])%list).
Proof.
  intros Hp Hd.
  destruct (ZipFile zip_path w1) as [[e|repo] w0] eqn:Hz;
    pose proof (ZipFile_pure _ _ _ _ Hz) as ->.
  { exists (inl e), w1. split; [|now left].
    unfold clone_from_url, bind at 1 2. rewrite Hp, Hd.
    unfold try_finally, bind at 1. rewrite Hz.
    change (f <- os_path_isfile zip_path ;;
            if f then os_remove zip_path else ret tt)
      with (remove_if_file zip_path).
    now rewrite remove_if_file_run. }
  destruct (find_root (namelist repo)) as [e|[root|]] eqn:Hroot.
  - pose proof (find_root_inl _ _ Hroot) as ->.
    exists (inl (AssertionError absolute_path_msg)), w1. split; [|now left].
    apply (clone_from_url_integrity _ _ _ _ _ _ _ _ Hp Hd Hz). now left.
  - rewrite (clone_from_url_root _ _ _ _ _ _ _ _ Hp Hd Hz Hroot).
    destruct (Fs.isdir (fs w1) (OsPath.join p root)).
    + eexists _, w1. split; [reflexivity|now left].
    + destruct (zip_extractall (zip_data repo) p (fs w1)) as [m x] eqn:Hx.
      eexists _, _. split; [reflexivity|]. right.
      exists repo, m, x. auto.
  - exists (inl (AssertionError empty_msg)), w1. split; [|now left].
    apply (clone_from_url_integrity _ _ _ _ _ _ _ _ Hp Hd Hz). now right.
Qed.

(** C9. The archive file does not outlive the call.  Once
    [download_file] has returned the path of the archive, leaving the world
    [w1], the [finally] block of [clone_from_url] runs on every path, in the
    world [w1] itself or in the one the extraction made of it: if the
    archive is a file there it is removed, the removal being the last call
    made, and nothing else is changed.  So the world [clone_from_url] ends
    in follows from [w1], and no file is at the archive's path when it
    returns or raises, whatever the zip reader and the extraction do. *)
Theorem clone_from_url_removes_archive (source_url p zip_path : string)
        (parent : option string) (w w1 : world) :
  parent_of parent w = (inr p, w) ->
  download_file source_url (Some p) w = (inr zip_path, w1) ->
  let w' := snd (clone_from_url source_url parent w) in
  (exists w2,
      (w2 = w1 \/
       exists repo m x,
         ZipFile zip_path w1 = (inr repo, w1) /\
         zip_extractall (zip_data repo) p (fs w1) = (m, x) /\
         w2 = World m (log w1 ++ [Extractall zip_path p])%list) /\
      w' = if Fs.isfile (fs w2) zip_path
           then World (delete (Fs.norm zip_path) (fs w2))
                      (log w2 ++ [Remove zip_path])%list
           else w2) /\
  Fs.isfile (fs w') zip_path = false.
Proof.
  intros Hp Hd w'. subst w'.
  destruct (clone_from_url_cleanup _ _ _ _ _ _ Hp Hd) as (r & w2 & -> & Hw2).
  cbn [snd]. split; [|apply remove_if_file_gone].
  exists w2. split; [exact Hw2|]. now rewrite remove_if_file_run.
Qed.

(** X7. No merging into an existing directory.  When the directory the
    archive would produce already exists under the parent,
    [clone_from_url] raises [IsADirectoryError] for it, removes the archive
    file and does nothing else: nothing is extracted. *)
Theorem clone_from_url_never_merges (source_url p zip_path root : string)
        (parent : option string) (w w1 : world) (repo : zipfile) :
  parent_of parent w = (inr p, w) ->
  download_file source_url (Some p) w = (inr zip_path, w1) ->
  ZipFile zip_path w1 = (inr repo, w1) ->
  find_root (namelist repo) = inr (Some root) ->
  Fs.isdir (fs w1) (OsPath.join p root) = true ->
  clone_from_url source_url parent w =
  (inl (IsADirectoryError (OsPath.join p root)),
   snd (remove_if_file zip_path w1)).
Proof.
  intros Hp Hd Hz Hroot Hdir.
  rewrite (clone_from_url_root _ _ _ _ _ _ _ _ Hp Hd Hz Hroot). now rewrite Hdir.
Qed.

Lemma clone_from_url_inv (source_url path : string) (parent : option string)
      (w w' : world) :
  clone_from_url source_url parent w = (inr path, w') ->
  exists p zip_path w1 repo root,
    parent_of parent w = (inr p, w) /\
    download_file source_url (Some p) w = (inr zip_path, w1) /\
    ZipFile zip_path w1 = (inr repo, w1) /\
    find_root (namelist repo) = inr (Some root) /\
    path = OsPath.join p root /\
    Fs.isdir (fs w1) path = false /\
    Fs.isdir (fs w') path = true /\
    Fs.isfile (fs w') zip_path = false /\
    In (Extractall zip_path p) (log w').
Proof.
  intros H.
  destruct (parent_of parent w) as [[e|p] w0] eqn:Hp.
  { unfold clone_from_url, bind at 1 in H. rewrite Hp in H. discriminate. }
  pose proof (parent_of_pure _ _ _ _ Hp) as ->.
  destruct (download_file source_url (Some p) w) as [[e|zip_path] w1] eqn:Hd.
  { unfold clone_from_url, bind at 1 2 in H. rewrite Hp, Hd in H. discriminate. }
  destruct (ZipFile zip_path w1) as [[e|repo] w2] eqn:Hz.
  { unfold clone_from_url, bind at 1 2 in H. rewrite Hp, Hd in H.
    unfold try_finally, bind at 1 in H. rewrite Hz in H.
    destruct (bind _ _ w2) as [[e'|u] w3]; discriminate. }
  pose proof (ZipFile_pure _ _ _ _ Hz) as ->.
  destruct (find_root (namelist repo)) as [e|[root|]] eqn:Hroot.
  - unfold clone_from_url, bind at 1 2 in H. rewrite Hp, Hd in H.
    unfold try_finally, bind at 1 in H. rewrite Hz in H.
    unfold bind at 1, lift in H. rewrite Hroot in H.
    destruct (bind _ _ w1) as [[e'|u] w3]; discriminate.
  - rewrite (clone_from_url_root _ _ _ _ _ _ _ _ Hp Hd Hz Hroot) in H.
    destruct (Fs.isdir (fs w1) (OsPath.join p root)) eqn:Hbefore;
      [discriminate|].
    destruct (zip_extractall (zip_data repo) p (fs w1)) as [m [e|]];
      [discriminate|].
    destruct (Fs.isdir m (OsPath.join p root)) eqn:Hafter; [|discriminate].
    injection H as <- <-.
    exists p, zip_path, w1, repo, root. repeat split; auto.
    + now rewrite isdir_remove_if_file.
    + apply remove_if_file_gone.
    + rewrite remove_if_file_run; cbn [snd fs log].
      destruct (Fs.isfile m zip_path); cbn [fs log];
        rewrite ?in_app_iff; cbn; auto.
  - unfold clone_from_url, bind at 1 2 in H. rewrite Hp, Hd in H.
    unfold try_finally, bind at 1 in H. rewrite Hz in H.
    unfold bind at 1, lift in H. rewrite Hroot in H.
    unfold raise in H.
    destruct (bind _ _ w1) as [[e'|u] w3]; discriminate.
Qed.

(** X8. A successful materialization.  When [clone_from_url] returns a
    path, that path is the parent joined with the first top-level directory
    entry of the downloaded archive; the directory was not there before the
    extraction and is there on return; the archive has been extracted into
    the parent and its file is gone. *)
Theorem clone_from_url_success (source_url path : string)
        (parent : option string) (w w' : world) :
  clone_from_url source_url parent w = (inr path, w') ->
  exists p zip_path w1 repo root,
    parent_of parent w = (inr p, w) /\
    download_file source_url (Some p) w = (inr zip_path, w1) /\
    ZipFile zip_path w1 = (inr repo, w1) /\
    find_root (namelist repo) = inr (Some root) /\
    path = OsPath.join p root /\
    Fs.isdir (fs w1) path = false /\
    Fs.isdir (fs w') path = true /\
    Fs.isfile (fs w') zip_path = false /\
    In (Extractall zip_path p) (log w').
Proof. apply clone_from_url_inv. Qed.

Lemma parent_of_Some (p : string) (w : world) :
  Fs.isdir (fs w) p = true -> parent_of (Some p) w = (inr p, w).
Proof. intros H. unfold parent_of, bind, os_path_isdir. now rewrite H. Qed.

Lemma clone_inv (repo user site path : string) (parent : option string)
        (w w' : world) :
  clone repo user site parent w = (inr path, w') ->
  exists p k src w1,
    parent_of parent w = (inr p, w) /\
    path = OsPath.join p repo /\
    Fs.isdir (fs w) path = false /\
    resolve_site site = inr k /\
    clone_from_url (Str.format (template_of k) user repo) (Some p) w
    = (inr src, w1) /\
    Fs.rename (fs w1) src path = inr (fs w') /\
    log w' = (log w1 ++ [Rename src path])%list /\
    Fs.isdir (fs w') path = true.
Proof.
  unfold clone, bind at 1.
  destruct (parent_of parent w) as [[e|p] w0] eqn:Hp; [discriminate|].
  pose proof (parent_of_pure _ _ _ _ Hp) as ->.
  unfold bind at 1, os_path_isdir at 1.
  destruct (Fs.isdir (fs w) (OsPath.join p repo)) eqn:Hbefore; [discriminate|].
  unfold bind at 1, lift.
  destruct (resolve_site site) as [e|k] eqn:Hk; [discriminate|].
  unfold bind at 1.
  destruct (clone_from_url _ (Some p) w) as [[e|src] w1] eqn:Hc; [discriminate|].
  unfold bind at 1, os_rename, bind at 1, record_call. cbn [fs log].
  destruct (Fs.rename (fs w1) src (OsPath.join p repo)) as [e|m] eqn:Hr;
    [discriminate|].
  unfold bind, os_path_isdir. cbn [fs].
  destruct (Fs.isdir m (OsPath.join p repo)) eqn:Hafter; cbn [negb];
    [|discriminate].
  unfold ret. intros [= <- <-].
  exists p, k, src, w1. cbn [fs log]. repeat split; auto.
Qed.

(** X9. A successful clone.  When [clone] returns a path, that path is
    the parent joined with the repo name; it was not a directory before and
    is one on return; the site resolved, the archive of the URL built for
    it was materialized, and the last call made is the rename of the
    extracted directory onto that path. *)
Theorem clone_success (repo user site path : string) (parent : option string)
        (w w' : world) :
  clone repo user site parent w = (inr path, w') ->
  exists p k src w1,
    parent_of parent w = (inr p, w) /\
    path = OsPath.join p repo /\
    Fs.isdir (fs w) path = false /\
    resolve_site site = inr k /\
    clone_from_url (Str.format (template_of k) user repo) (Some p) w
    = (inr src, w1) /\
    Fs.rename (fs w1) src path = inr (fs w') /\
    log w' = (log w1 ++ [Rename src path])%list /\
    Fs.isdir (fs w') path = true.
Proof. apply clone_inv. Qed.

(** X10. A parent that is not a directory.  Given a parent that is not
    an existing directory, [clone_from_url] and [clone] raise
    [NotADirectoryError] for it and leave the world as it was, whatever
    their other arguments. *)
Theorem parent_must_be_directory (q : string) (w : world) :
  Fs.isdir (fs w) q = false ->
  (forall source_url,
      clone_from_url source_url (Some q) w = (inl (NotADirectoryError q), w)) /\
  (forall repo user site,
      clone repo user site (Some q) w = (inl (NotADirectoryError q), w)).
Proof.
  intros H. split; intros.
  - unfold clone_from_url, bind at 1, parent_of, bind, os_path_isdir.
    now rewrite H.
  - unfold clone, bind at 1, parent_of, bind, os_path_isdir. now rewrite H.
Qed.

(** X11. A leftover archive blocks the clone.  In an existing parent
    directory where [master.zip] is already a file, and [repo] is not yet a
    directory, [clone] for a site that resolves raises [FileExistsError] for
    [parent/master.zip], whatever the user and the repo, and leaves the
    world as it was: nothing is fetched and the file is not touched. *)
Theorem clone_blocked_by_leftover_archive (repo user site k p : string)
        (parent : option string) (w : world) :
  parent_of parent w = (inr p, w) ->
  Fs.isdir (fs w) p = true ->
  Fs.isdir (fs w) (OsPath.join p repo) = false ->
  resolve_site site = inr k ->
  Fs.isfile (fs w) (OsPath.join p "master.zip") = true ->
  clone repo user site parent w
  = (inl (FileExistsError (OsPath.join p "master.zip")), w).
Proof.
  intros Hp Hd Hfree Hk Hf.
  unfold clone, bind at 1 2. rewrite Hp.
  unfold os_path_isdir at 1. rewrite Hfree.
  unfold bind at 1, lift. rewrite Hk.
  unfold bind at 1, clone_from_url, bind at 1 2.
  rewrite (parent_of_Some _ _ Hd).
  unfold download_file, bind at 1 2.
  rewrite (save_path_in_dir _ _ _ Hd), basename_candidate_url
    by (now apply resolve_site_inr in Hk as [Hk _]).
  unfold os_path_isfile at 1. now rewrite Hf.
Qed.

(** ** The search, combination by combination *)

Lemma gen_for_map {A B Y} (f : A -> B) (body : B -> gen Y) (l : list A) :
  gen_for (map f l) body = gen_for l (fun a => body (f a)).
Proof.
  induction l as [|a l IH]; [reflexivity|].
  cbn [map gen_for]. now rewrite IH.
Qed.

Lemma gen_for_flat_map {A B Y} (f : A -> list B) (body : B -> gen Y)
      (l : list A) :
  gen_for (flat_map f l) body = gen_for l (fun a => gen_for (f a) body).
Proof.
  induction l as [|a l IH]; [reflexivity|].
  cbn [flat_map gen_for]. rewrite gen_for_app, IH.
  now destruct (gen_for (f a) body) as [s [e|]].
Qed.

Lemma gen_for_ext {A Y} (f g : A -> gen Y) (l : list A) :
  (forall a, f a = g a) -> gen_for l f = gen_for l g.
Proof.
  intros H. induction l as [|a l IH]; [reflexivity|].
  cbn [gen_for]. now rewrite H, IH.
Qed.

Lemma search_site_flat (repos users : list string) (c : string) :
  gen_for (candidates [c] users repos) probe_of
  = gen_for users (fun user =>
      gen_for repos (fun repo => probe (template_of c) c user repo)).
Proof.
  unfold candidates. cbn [flat_map]. rewrite app_nil_r, gen_for_flat_map.
  apply gen_for_ext. intros user. now rewrite gen_for_map.
Qed.

(** With sites that resolve, the three loops are one loop over the
    combinations. *)
Lemma search_loop_flat (repos users sites csites : list string) :
  Forall2 (fun site c => resolve_site site = inr c) sites csites ->
  search_loop repos users sites
  = gen_for (candidates csites users repos) probe_of.
Proof.
  unfold search_loop.
  induction 1 as [|site c sites csites Hr _ IH]; [reflexivity|].
  rewrite candidates_cons, gen_for_app. cbn [gen_for].
  now rewrite Hr, IH, search_site_flat.
Qed.

Lemma probe_of_settled (c : string * string * string) :
  settled (candidate_url c) -> probe_of c = (steps_of c, None).
Proof. destruct c as [[site user] repo]. apply probe_settled. Qed.

(** X12. An exception of a probe that is not a network error.  With
    sites that resolve, if the probes of the combinations before [c] answer
    or fail with a network error and the probe of [c] raises something
    else, the search goes through the combinations before [c], probes [c]
    and ends with that exception: it is not swallowed, and no combination
    after [c] is probed. *)
Theorem search_stops_at_exception (repos users sites csites : list string)
        (pre post : list (string * string * string))
        (c : string * string * string) (e : exn) :
  Forall2 (fun site k => resolve_site site = inr k) sites csites ->
  candidates csites users repos = (pre ++ c :: post)%list ->
  Forall (fun x => settled (candidate_url x)) pre ->
  urlopen (candidate_url c) = Some e ->
  is_network_error e = false ->
  search (Seq repos) (Some (Seq users)) (Some (Seq sites))
  = ((flat_map steps_of pre ++ [Probed (candidate_url c)])%list, Some e).
Proof.
  intros Hr Hc Hpre Hu He. unfold search.
  cbn [repos_list users_list sites_list].
  rewrite (search_loop_flat _ _ _ _ Hr), Hc, gen_for_app.
  rewrite gen_for_finishes.
  2:{ intros a Ha. rewrite List.Forall_forall in Hpre.
      now rewrite probe_of_settled by auto. }
  cbn [gen_for].
  assert (Hp : probe_of c = ([Probed (candidate_url c)], Some e)).
  { destruct c as [[site user] repo]. unfold probe_of, probe.
    cbn [candidate_url] in Hu. now rewrite Hu, He. }
  rewrite Hp. f_equal. f_equal.
  apply flat_map_ext_In. intros a Ha. rewrite List.Forall_forall in Hpre.
  now rewrite probe_of_settled by auto.
Qed.

Lemma search_loop_yield_inv (repos users sites : list string)
      (repo user site : string) :
  In (Yielded (repo, user, site)) (fst (search_loop repos users sites)) ->
  In repo repos /\ In user users /\
  urlopen (Str.format (template_of site) user repo) = None.
Proof.
  unfold search_loop. intros H.
  apply gen_for_In in H as (site0 & _ & H).
  destruct (resolve_site site0) as [e|c]; [contradiction|].
  apply gen_for_In in H as (u & Hu & H).
  apply gen_for_In in H as (r & Hr & H).
  unfold probe in H.
  destruct (urlopen (Str.format (template_of c) u r)) as [e'|] eqn:Ho;
    [destruct (is_network_error e')|]; simpl in H.
  - destruct H as [H|[]]; discriminate.
  - destruct H as [H|[]]; discriminate.
  - destruct H as [H|[H|[]]]; [discriminate|].
    injection H as <- <- <-. auto.
Qed.

(** X13. Only what answered is yielded.  Every triple [search] yields
    has a repo and a user of the lists searched, and the probe of the URL
    built for it from the yielded site returned without an exception. *)
Theorem search_yields_answered (repos : strs) (users sites : option strs)
        (repo user site : string) :
  In (repo, user, site) (yields (search repos users sites)) ->
  In repo (repos_list repos) /\
  (exists us, users_list users = inr us /\ In user us) /\
  urlopen (Str.format (template_of site) user repo) = None.
Proof.
  rewrite yields_In. unfold search.
  destruct (users_list users) as [e|us]; [contradiction|].
  intros H. apply search_loop_yield_inv in H as (Hr & Hu & Ho).
  repeat split; eauto.
Qed.

(** X14. The sites searched by default.  With [sites] omitted and
    probes that answer or fail with a network error, the search goes
    through the combinations of the sites of the table in the order of the
    table, bitbucket before github, and ends without an exception. *)
Theorem search_default_sites (repos : strs) (users : option strs)
        (us : list string) :
  users_list users = inr us ->
  Forall (fun x => settled (candidate_url x))
         (candidates ["bitbucket"; "github"] us (repos_list repos)) ->
  search repos users None
  = (flat_map steps_of (candidates ["bitbucket"; "github"] us (repos_list repos)),
     None).
Proof.
  intros Hu Hs. unfold search. rewrite Hu. cbn [sites_list].
  apply search_loop_finishes; [|exact Hs].
  repeat constructor.
Qed.

(** ** Runs of probes *)

Lemma probe_run_then {Y} (g : gen Y) (s' : list (step Y)) (r : option exn) :
  probe_run g -> snd g = None -> probe_run (s', r) ->
  probe_run ((fst g ++ s')%list, r).
Proof.
  intros H Hn H'.
  induction H as [|e|url g Hu Hg IH|url e Hu He|url y g Hu Hg IH];
    cbn [fst snd] in *; try discriminate.
  - exact H'.
  - apply (run_fail url ((fst g ++ s')%list, r) Hu (IH Hn)).
  - apply (run_hit url y ((fst g ++ s')%list, r) Hu (IH Hn)).
Qed.

Lemma probe_run_app {Y} (s s' : list (step Y)) (r : option exn) :
  probe_run (s, None) -> probe_run (s', r) -> probe_run ((s ++ s')%list, r).
Proof. intros H H'. now apply (probe_run_then (s, None)). Qed.

Lemma probe_run_gen_for {A Y} (l : list A) (body : A -> gen Y) :
  (forall a, probe_run (body a)) -> probe_run (gen_for l body).
Proof.
  intros Hb. induction l as [|a l IH]; cbn [gen_for]; [constructor|].
  specialize (Hb a). destruct (body a) as [s [e|]]; [exact Hb|].
  destruct (gen_for l body) as [s' r]. now apply probe_run_app.
Qed.

Lemma probe_run_probe (template site user repo : string) :
  probe_run (probe template site user repo).
Proof.
  unfold probe.
  destruct (urlopen (Str.format template user repo)) as [e|] eqn:Hu.
  - destruct (is_network_error e) eqn:He.
    + apply (run_fail _ ([], None)); [now exists e|constructor].
    + now apply run_stop.
  - apply (run_hit _ _ ([], None)); [exact Hu|constructor].
Qed.

Lemma probe_run_search (repos : strs) (users sites : option strs) :
  probe_run (search repos users sites).
Proof.
  unfold search. destruct (users_list users) as [e|us]; [constructor|].
  unfold search_loop. apply probe_run_gen_for. intros site.
  destruct (resolve_site site) as [e|c]; [constructor|].
  apply probe_run_gen_for. intros user. apply probe_run_gen_for. intros repo.
  apply probe_run_probe.
Qed.

(** Leaving a run at its first value: the last URL probed answered, those
    before it were unreachable. *)
Lemma gen_first_hit {Y} (g : gen Y) (urls : list string) (y : Y) :
  probe_run g -> gen_first (fst g) = (urls, Some y) ->
  In (Yielded y) (fst g) /\
  exists fails url,
    urls = (fails ++ [url])%list /\ urlopen url = None /\
    Forall unreachable fails.
Proof.
  intros H. revert urls.
  induction H as [|e|url g Hu Hg IH|url e Hu He|url y' g Hu Hg IH];
    intros urls; cbn [fst gen_first]; try discriminate.
  - destruct (gen_first (fst g)) as [us o] eqn:Hf. intros [= <- ->].
    destruct (IH us eq_refl) as (Hin & fails & u & -> & Ho & Hfails).
    split; [now right|].
    exists (url :: fails), u. repeat split; auto.
  - intros [= <- <-]. split; [right; now left|].
    exists [], url. repeat split; auto.
Qed.

(** A run that ends without a value and without an exception: every URL
    probed was unreachable. *)
Lemma gen_first_miss {Y} (g : gen Y) (urls : list string) :
  probe_run g -> gen_first (fst g) = (urls, None) -> snd g = None ->
  Forall unreachable urls /\ yields g = [] /\ probes g = urls.
Proof.
  intros H. revert urls.
  induction H as [|e|url g Hu Hg IH|url e Hu He|url y' g Hu Hg IH];
    intros urls; cbn [fst snd gen_first]; try discriminate.
  - intros [= <-] _. repeat split; constructor.
  - destruct (gen_first (fst g)) as [us o] eqn:Hf. intros [= <- ->] Hn.
    destruct (IH us eq_refl Hn) as (Hall & Hy & Hp).
    repeat split.
    + now constructor.
    + exact Hy.
    + change (probes (Probed url :: fst g, snd g)) with (url :: probes g).
      now rewrite Hp.
Qed.

(** ** The top-level driver *)

Lemma main_loop_status (repo : string) (user site : option string)
      (w w' : world) (c : console) (status : Z) :
  main_loop repo user site w = (inr status, c, w') ->
  (status = 0 /\
   exists path fails url,
     path = OsPath.join cwd repo /\
     stdout c = ["Repo " ++ repo ++ " cloned to " ++ path ++ "."] /\
     Fs.isdir (fs w') path = true /\
     Fs.isdir (fs w) path = false /\
     probed c = (fails ++ [url])%list /\ urlopen url = None /\
     Forall unreachable fails) \/
  (status = 1 /\ w' = w /\
   stdout c = ["Repo " ++ repo ++ " not found."] /\
   Forall unreachable (probed c)).
Proof.
  unfold main_loop.
  set (g := search (Str1 repo) (option_map Str1 user) (option_map Str1 site)).
  pose proof (probe_run_search (Str1 repo) (option_map Str1 user)
                (option_map Str1 site)) as Hrun. fold g in Hrun.
  destruct (gen_first (fst g)) as [urls [[[mr mu] ms]|]] eqn:Hf.
  - destruct (gen_first_hit _ _ _ Hrun Hf) as (Hin & fails & url & -> & Ho & Hfails).
    assert (Hmr : mr = repo).
    { subst g. unfold search in Hin.
      destruct (users_list (option_map Str1 user)) as [e|us]; [contradiction|].
      apply search_loop_yield_inv in Hin as ([<-|[]] & _). reflexivity. }
    subst mr.
    destruct (clone repo mu ms None w) as [[e|path] w1] eqn:Hc; [discriminate|].
    intros [= <- <- <-]. left. split; [reflexivity|].
    apply clone_inv in Hc
      as (p & k & src & w2 & Hp & -> & Hbefore & _ & _ & _ & _ & Hafter).
    cbn in Hp. injection Hp as <-.
    exists (OsPath.join cwd repo), fails, url. cbn [stdout probed].
    repeat split; auto.
  - destruct (raised g) as [e|] eqn:Hr; [discriminate|].
    intros [= <- <- <-]. right. cbn [stdout probed].
    destruct (gen_first_miss _ _ Hrun Hf Hr) as (Hall & _ & _).
    repeat split; auto.
Qed.

(** X15. Wrong number of arguments.  With no argument or more than
    three, [main] prints the usage text and returns 1; it probes nothing
    and leaves the world as it was. *)
Theorem main_usage (args : list string) (w : world) :
  args = [] \/ (3 < length args)%nat ->
  main args w = (inr 1, Console [USAGE] [], w).
Proof.
  intros [->|H]; [reflexivity|].
  destruct args as [|a [|b [|c [|d rest]]]]; cbn in H; try lia.
  reflexivity.
Qed.

(** X16. Status 0.  When [main] returns 0, it was given one to three
    arguments, the first being the repo; the last URL it probed answered and
    every URL probed before it failed with a network error; the one line
    printed names the repo and the path, the working directory joined with
    the repo name; that path was not a directory before and is one now. *)
Theorem main_cloned (args : list string) (c : console) (w w' : world) :
  main args w = (inr 0, c, w') ->
  exists repo rest path fails url,
    args = repo :: rest /\ (length rest <= 2)%nat /\
    path = OsPath.join cwd repo /\
    stdout c = ["Repo " ++ repo ++ " cloned to " ++ path ++ "."] /\
    Fs.isdir (fs w') path = true /\
    Fs.isdir (fs w) path = false /\
    probed c = (fails ++ [url])%list /\ urlopen url = None /\
    Forall unreachable fails.
Proof.
  intros H.
  assert (Hloop : exists repo user site rest,
             args = repo :: rest /\ (length rest <= 2)%nat /\
             main_loop repo user site w = (inr 0, c, w')).
  { destruct args as [|a [|b [|s [|d rest]]]]; cbn in H; try discriminate.
    - exists a, None, None, []. cbn. auto.
    - exists a, (Some b), None, [b]. cbn. auto.
    - exists a, (Some b), (Some s), [b; s]. cbn. auto. }
  destruct Hloop as (repo & user & site & rest & -> & Hlen & Hloop).
  apply main_loop_status in Hloop
    as [(_ & path & fails & url & Hrest)|(Hst & _)]; [|discriminate].
  exists repo, rest, path, fails, url. tauto.
Qed.

(** X17. Status 1.  When [main] returns 1 it has left the world as it
    was, and either it was given no argument or more than three and printed
    the usage text without probing anything, or every URL it probed failed
    with a network error and it printed that the repo was not found. *)
Theorem main_failed (args : list string) (c : console) (w w' : world) :
  main args w = (inr 1, c, w') ->
  w' = w /\
  ((args = [] \/ (3 < length args)%nat) /\ c = Console [USAGE] [] \/
   exists repo rest,
     args = repo :: rest /\ (length rest <= 2)%nat /\
     stdout c = ["Repo " ++ repo ++ " not found."] /\
     Forall unreachable (probed c)).
Proof.
  intros H.
  assert (Hnf : forall repo user site rest,
             args = repo :: rest -> (length rest <= 2)%nat ->
             main_loop repo user site w = (inr 1, c, w') ->
             w' = w /\
             ((args = [] \/ (3 < length args)%nat) /\ c = Console [USAGE] [] \/
              exists repo rest,
                args = repo :: rest /\ (length rest <= 2)%nat /\
                stdout c = ["Repo " ++ repo ++ " not found."] /\
                Forall unreachable (probed c))).
  { intros repo user site rest Ha Hlen Hloop.
    apply main_loop_status in Hloop as [(Hst & _)|(_ & -> & Hout & Hall)];
      [discriminate|].
    split; [reflexivity|]. right. exists repo, rest. auto. }
  destruct args as [|a [|b [|s [|d rest]]]]; cbn in H.
  - injection H as <- <-. split; [reflexivity|]. left. auto.
  - apply (Hnf a None None []); cbn; auto.
  - apply (Hnf a (Some b) None [b]); cbn; auto.
  - apply (Hnf a (Some b) (Some s) [b; s]); cbn; auto.
  - injection H as <- <-. split; [reflexivity|]. left. split; [|reflexivity].
    right. cbn. lia.
Qed.

(** X18. Exceptions that escape the driver.  An unknown site given as
    third argument makes [main] raise [KeyError] for the lowered identifier,
    and a [getpass.getuser()] that raises makes [search] with the users
    omitted, hence [main] with the repo alone, raise its exception: in both
    cases nothing is probed, nothing is printed and the world is left as it
    was, rather than the repo being reported as not found. *)
Theorem main_raises (repo : string) (w : world) :
  (forall user site e,
      resolve_site site = inl e ->
      main [repo; user; site] w = (inl e, Console [] [], w)) /\
  (forall e,
      getpass_getuser env = inl e ->
      (forall repos sites, search repos None sites = ([], Some e)) /\
      main [repo] w = (inl e, Console [] [], w)).
Proof.
  split.
  - intros user site e He. cbn [main]. unfold main_loop, search.
    cbn [option_map repos_list users_list sites_list].
    unfold search_loop. cbn [gen_for]. now rewrite He.
  - intros e He.
    assert (Hs : forall repos sites, search repos None sites = ([], Some e)).
    { intros. unfold search. cbn [users_list]. unfold gen_list.
      now rewrite (iter_default_users_without_user _ He). }
    split; [exact Hs|].
    cbn [main]. unfold main_loop. cbn [option_map]. now rewrite Hs.
Qed.

(** X19. An archive the scan rejects.  Once the archive is on disk and
    open: if an entry that is empty or absolute comes before every top-level
    directory entry, [clone_from_url] raises [AssertionError] with the
    message about an absolute path; if no entry is empty or absolute and
    none is a top-level directory entry, it raises [AssertionError] with the
    message about an empty repo.  Either way the archive file is removed
    and nothing else is done: nothing is extracted. *)
Theorem clone_from_url_rejects (source_url p zip_path : string)
        (parent : option string) (w w1 : world) (repo : zipfile) :
  parent_of parent w = (inr p, w) ->
  download_file source_url (Some p) w = (inr zip_path, w1) ->
  ZipFile zip_path w1 = (inr repo, w1) ->
  ((exists pre bad post,
       namelist repo = (pre ++ bad :: post)%list /\
       Forall (fun n => rejected n = false /\ top_level_dir n = false) pre /\
       rejected bad = true) ->
   clone_from_url source_url parent w =
   (inl (AssertionError absolute_path_msg), snd (remove_if_file zip_path w1))) /\
  (Forall (fun n => rejected n = false /\ top_level_dir n = false)
          (namelist repo) ->
   clone_from_url source_url parent w =
   (inl (AssertionError empty_msg), snd (remove_if_file zip_path w1))).
Proof.
  intros Hp Hd Hz. split.
  - intros (pre & bad & post & Hn & Hpre & Hbad).
    apply (clone_from_url_integrity _ _ _ _ _ _ _ _ Hp Hd Hz).
    left. rewrite Hn. now apply find_root_rejected.
  - intros Hall.
    apply (clone_from_url_integrity _ _ _ _ _ _ _ _ Hp Hd Hz).
    right. split; [now apply find_root_nothing|reflexivity].
Qed.

(** X20. After the extraction.  Once the root of the archive is found
    and is not yet a directory under the parent, the archive is extracted;
    if the extraction raises, [clone_from_url] raises the same exception; if
    it returns and the root is still not a directory, [clone_from_url]
    raises [NotADirectoryError] for it.  In both cases the archive file is
    removed from what the extraction left. *)
Theorem clone_from_url_extraction_fails (source_url p zip_path root : string)
        (parent : option string) (w w1 : world) (repo : zipfile)
        (m : gmap string node) (r : option exn) :
  parent_of parent w = (inr p, w) ->
  download_file source_url (Some p) w = (inr zip_path, w1) ->
  ZipFile zip_path w1 = (inr repo, w1) ->
  find_root (namelist repo) = inr (Some root) ->
  Fs.isdir (fs w1) (OsPath.join p root) = false ->
  zip_extractall (zip_data repo) p (fs w1) = (m, r) ->
  (r = None -> Fs.isdir m (OsPath.join p root) = false) ->
  clone_from_url source_url parent w =
  (inl (match r with
        | Some e => e
        | None => NotADirectoryError (OsPath.join p root)
        end),
   snd (remove_if_file zip_path
          (World m (log w1 ++ [Extractall zip_path p])%list))).
Proof.
  intros Hp Hd Hz Hroot Hfree Hx Hmiss.
  rewrite (clone_from_url_root _ _ _ _ _ _ _ _ Hp Hd Hz Hroot), Hfree, Hx.
  destruct r as [e|]; [reflexivity|]. now rewrite Hmiss.
Qed.

End Program.

(** ** The program on the sample worlds *)


(** A search through github, then the unknown gitlab, then bitbucket. *)
Lemma search_unknown_site_fails_witness :
  search Sample.unicode_lower (Sample.urlopen [github_alice_foo]) Sample.nobody
         (Str1 "foo") (Some (Seq ["alice"; "bob"]))
         (Some (Seq ["github"; "GitLab.com"; "bitbucket"]))
  = ([Probed github_alice_foo; Yielded ("foo", "alice", "github");
      Probed github_bob_foo],
     Some (KeyError "gitlab.com")).
Proof.
  apply (search_unknown_site_fails Sample.unicode_lower
           (Sample.urlopen [github_alice_foo]) Sample.nobody
           (Str1 "foo") (Some (Seq ["alice"; "bob"]))
           (Some (Seq ["github"; "GitLab.com"; "bitbucket"]))
           ["alice"; "bob"] ["github"] ["bitbucket"] ["github"] "GitLab.com").
  - reflexivity.
  - reflexivity.
  - repeat constructor.
  - vm_compute; reflexivity.
  - vm_compute; reflexivity.
  - repeat constructor; vm_compute; reflexivity.
Defined.

(** The triple found through the identifier "GitHub.com" carries "github". *)
Lemma search_yields_canonical_site_witness :
  In ("foo", "alice", "github")
     (yields (search Sample.unicode_lower
         (Sample.urlopen [github_alice_foo]) Sample.nobody
                     (Str1 "foo") (Some (Str1 "alice")) (Some (Str1 "GitHub.com")))) /\
  resolve_site Sample.unicode_lower "github" = inr "github".
Proof.
  assert (H : In ("foo", "alice", "github")
     (yields (search Sample.unicode_lower
         (Sample.urlopen [github_alice_foo]) Sample.nobody
                     (Str1 "foo") (Some (Str1 "alice")) (Some (Str1 "GitHub.com"))))).
  { vm_compute. left; reflexivity. }
  split; [exact H|].
  exact (proj2 (proj2 (proj2 (search_yields_canonical_site Sample.unicode_lower
      _ _ _ _ _ _ _ _ H)))).
Defined.

(** [clone] asked for the unknown site "gitlab"; "GITHUB" and "GitHub"
    looked up. *)
Lemma site_lookup_witness :
  clone Sample.unicode_lower Sample.cwd (Sample.urlretrieve_ok "PK")
        (Sample.zip_read []) (Sample.zip_extractall [])
        "foo" "alice" "gitlab" (Some "/w") (Sample.start Sample.disk)
  = (inl (KeyError "gitlab"), Sample.start Sample.disk) /\
  resolve_site Sample.unicode_lower "GITHUB"
  = resolve_site Sample.unicode_lower "github" /\
  resolve_site Sample.unicode_lower (lower Sample.unicode_lower "GitHub")
  = resolve_site Sample.unicode_lower "GitHub".
Proof.
  destruct (site_lookup Sample.unicode_lower Sample.cwd (Sample.urlopen [])
              (Sample.urlretrieve_ok "PK") (Sample.zip_read [])
              (Sample.zip_extractall [])) as (Hsame & Hascii & Hall & _).
  split; [|split].
  - specialize (Hall "gitlab").
    change (resolve_site Sample.unicode_lower "gitlab")
      with (@inl exn string (KeyError "gitlab")) in Hall.
    cbv beta iota in Hall.
    destruct Hall as (_ & _ & _ & H & _).
    apply (H "foo" "alice" (Some "/w") "/w" (Sample.start Sample.disk)).
    + vm_compute; reflexivity.
    + vm_compute; reflexivity.
  - apply Hsame. vm_compute; reflexivity.
  - apply (Hascii "GitHub"). vm_compute; reflexivity.
Defined.

(** A fetch into [/w] where [/w/master.zip] already is. *)
Lemma download_file_never_overwrites_witness :
  let w := Sample.start (<["/w/master.zip" := File "old"]> Sample.disk) in
  download_file Sample.cwd (Sample.urlretrieve_ok "PK")
                github_alice_foo (Some "/w") w
  = (inl (FileExistsError "/w/master.zip"), w).
Proof.
  intros w.
  apply (download_file_never_overwrites Sample.cwd (Sample.urlretrieve_ok "PK")
           github_alice_foo "/w/master.zip" (Some "/w") w).
  - vm_compute; reflexivity.
  - vm_compute; reflexivity.
Defined.

(** A fetch into [/w] that breaks off after writing part of the file. *)
Lemma download_file_cleans_up_witness :
  let r := download_file Sample.cwd (Sample.urlretrieve_broken "PK")
                         github_alice_foo (Some "/w")
                         (Sample.start Sample.disk) in
  fst r = inl (URLError github_alice_foo) /\
  Fs.isfile (fs (snd r)) "/w/master.zip" = false.
Proof.
  intros r.
  destruct (download_file_cleans_up Sample.cwd (Sample.urlretrieve_broken "PK")
              github_alice_foo "/w/master.zip" (Some "/w")
              (Sample.start Sample.disk)
              (<["/w/master.zip" := File "PK"]> Sample.disk)
              (URLError github_alice_foo)) as (H1 & H2 & _).
  - vm_compute; reflexivity.
  - vm_compute; reflexivity.
  - vm_compute; reflexivity.
  - split; [exact H1 | exact H2].
Defined.

(** A materialization whose archive has no top-level directory entry:
    the download, then the removal. *)
Lemma clone_from_url_removes_archive_witness :
  let w' := snd (clone_from_url Sample.cwd (Sample.urlretrieve_ok "PK")
                   (Sample.zip_read ["README.md"])
                   (Sample.zip_extractall ["README.md"])
                   github_alice_foo (Some "/w") (Sample.start Sample.disk)) in
  Fs.isfile (fs w') "/w/master.zip" = false /\
  w' = World Sample.disk [Urlretrieve github_alice_foo "/w/master.zip";
                          Remove "/w/master.zip"].
Proof.
  intros w'.
  destruct (clone_from_url_removes_archive Sample.cwd (Sample.urlretrieve_ok "PK")
           (Sample.zip_read ["README.md"]) (Sample.zip_extractall ["README.md"])
           github_alice_foo "/w" "/w/master.zip" (Some "/w")
           (Sample.start Sample.disk)
           (World (<["/w/master.zip" := File "PK"]> Sample.disk)
                  [Urlretrieve github_alice_foo "/w/master.zip"]))
    as [_ Hgone].
  - vm_compute; reflexivity.
  - vm_compute; reflexivity.
  - split; [exact Hgone|]. vm_compute; reflexivity.
Defined.

(** A clone of [foo] into [/w] where the directory [/w/foo] already is. *)
Lemma clone_refuses_existing_directory_witness :
  let w := Sample.start (<["/w/foo" := Dir]> Sample.disk) in
  clone Sample.unicode_lower
      Sample.cwd (Sample.urlretrieve_ok "PK") (Sample.zip_read ["foo-master/"])
        (Sample.zip_extractall ["foo-master/"]) "foo" "alice" "github" (Some "/w") w
  = (inl (IsADirectoryError "/w/foo"), w).
Proof.
  intros w.
  apply (clone_refuses_existing_directory Sample.unicode_lower
      Sample.cwd (Sample.urlretrieve_ok "PK")
           (Sample.zip_read ["foo-master/"]) (Sample.zip_extractall ["foo-master/"])
           "foo" "alice" "github" "/w" (Some "/w") w).
  - vm_compute; reflexivity.
  - vm_compute; reflexivity.
Defined.

(** C4, as the specification has it, fails: a clone of [foo] into [/w]
    where [/w/foo] exists as a regular file.  The path exists, yet [clone]
    downloads the archive, extracts it and attempts the rename; what it
    raises is the [NotADirectoryError] of the rename, and the extracted
    directory stays behind. *)
Lemma clone_over_existing_file :
  let w := Sample.start (<["/w/foo" := File "x"]> Sample.disk) in
  let r := clone Sample.unicode_lower Sample.cwd (Sample.urlretrieve_ok "PK")
                 (Sample.zip_read ["foo-master/"])
                 (Sample.zip_extractall ["foo-master/"])
                 "foo" "alice" "github" (Some "/w") w in
  path_exists (fs w) (OsPath.join "/w" "foo") = true /\
  fst r = inl (NotADirectoryError "/w/foo") /\
  already_exists (NotADirectoryError "/w/foo") = false /\
  log (snd r) = [Urlretrieve github_alice_foo "/w/master.zip";
                 Extractall "/w/master.zip" "/w";
                 Remove "/w/master.zip";
                 Rename "/w/foo-master/" "/w/foo"] /\
  Fs.isdir (fs (snd r)) "/w/foo-master" = true.
Proof. vm_compute. repeat split; reflexivity. Qed.

(** C1 at an archive whose absolute entry comes after its top-level
    directory entry: the scan stops at the directory entry, no assertion
    fails, and the archive is extracted. *)
Theorem clone_from_url_absolute_after_root :
  let names := ["foo-master/"; "/etc/passwd"] in
  let r := clone_from_url Sample.cwd (Sample.urlretrieve_ok "PK")
                          (Sample.zip_read names) (Sample.zip_extractall names)
                          github_alice_foo (Some "/w")
                          (Sample.start Sample.disk) in
  existsb (fun name => Str.startswith name "/") names = true /\
  find_root names = inr (Some "foo-master/") /\
  fst r = inr "/w/foo-master/" /\
  log (snd r) = [Urlretrieve github_alice_foo "/w/master.zip";
                 Extractall "/w/master.zip" "/w";
                 Remove "/w/master.zip"] /\
  Fs.isdir (fs (snd r)) "/w/foo-master" = true.
Proof. vm_compute. repeat split; reflexivity. Qed.

(** C2 at a process none of whose identity sources answers: the
    exception of [getpass.getuser()] ends the enumeration. *)
Theorem iter_default_users_nobody :
  iter_default_users Sample.unicode_lower Sample.nobody
  = ([], Some (KeyError "getpwuid(): uid not found: 1234")).
Proof. reflexivity. Qed.

(** With [getpass.getuser()] answering, the names come out once each up to
    case. *)
Example iter_default_users_alice :
  iter_default_users Sample.unicode_lower
      Sample.alice = ([Yielded "alice"; Yielded "root"], None).
Proof. vm_compute; reflexivity. Qed.

(** ** Further properties on the sample worlds *)

Lemma candidate_url_shape_witness :
  OsPath.basename (Str.format (template_of "github") "alice" "foo") = "master.zip".
Proof.
  apply (proj2 (proj2 (candidate_url_shape "alice" "foo"))).
  simpl. auto.
Defined.

Lemma find_root_first_top_level_witness :
  find_root ["README.md"; "foo-master/"; "/etc/passwd"] = inr (Some "foo-master/").
Proof.
  apply (proj2 (find_root_first_top_level
                  ["README.md"; "foo-master/"; "/etc/passwd"] "foo-master/")).
  exists ["README.md"], ["/etc/passwd"].
  repeat split; try reflexivity.
  repeat constructor.
Defined.

Lemma iter_default_users_sources_witness :
  raised (iter_default_users Sample.unicode_lower Sample.alice) = None /\
  yields (iter_default_users Sample.unicode_lower Sample.alice)
  = ["alice"; "root"] /\
  exists y,
    In y (yields (iter_default_users Sample.unicode_lower Sample.alice)) /\
    lower Sample.unicode_lower y = lower Sample.unicode_lower "ALICE".
Proof.
  destruct (iter_default_users_sources Sample.unicode_lower Sample.alice "alice")
    as (Hr & Hy & _ & _ & Hcov & _ & _).
  - reflexivity.
  - split; [exact Hr|]. split.
    + rewrite Hy. vm_compute; reflexivity.
    + apply Hcov. right; right; right; left. vm_compute; reflexivity.
Defined.

Lemma clone_from_url_touches_witness :
  grows (materializer_call github_alice_foo "/w/master.zip" "/w")
        (Sample.start Sample.disk)
        (snd (clone_from_url Sample.cwd (Sample.urlretrieve_ok "PK")
                (Sample.zip_read ["foo-master/"])
                (Sample.zip_extractall ["foo-master/"])
                github_alice_foo (Some "/w") (Sample.start Sample.disk))).
Proof.
  apply (clone_from_url_touches Sample.cwd (Sample.urlretrieve_ok "PK")
           (Sample.zip_read ["foo-master/"]) (Sample.zip_extractall ["foo-master/"])
           github_alice_foo "/w" "/w/master.zip" (Some "/w")
           (Sample.start Sample.disk)).
  - vm_compute; reflexivity.
  - vm_compute; reflexivity.
Defined.

Lemma clone_touches_witness :
  grows (clone_call Sample.unicode_lower "foo" "alice" "GitHub" "/w")
        (Sample.start Sample.disk)
        (snd (clone Sample.unicode_lower Sample.cwd (Sample.urlretrieve_broken "PK")
                (Sample.zip_read ["foo-master/"])
                (Sample.zip_extractall ["foo-master/"])
                "foo" "alice" "GitHub" (Some "/w") (Sample.start Sample.disk))).
Proof.
  apply (clone_touches Sample.unicode_lower Sample.cwd (Sample.urlretrieve_broken "PK")
           (Sample.zip_read ["foo-master/"]) (Sample.zip_extractall ["foo-master/"])
           "foo" "alice" "GitHub" "/w" (Some "/w") (Sample.start Sample.disk)).
  - vm_compute; reflexivity.
  - vm_compute; reflexivity.
Defined.

Lemma download_file_success_witness :
  Fs.isfile (fs (Sample.start Sample.disk)) "/w/master.zip" = false /\
  exists m,
    Sample.urlretrieve_ok "PK" github_alice_foo "/w/master.zip" Sample.disk
    = (m, None).
Proof.
  destruct (download_file_success Sample.cwd (Sample.urlretrieve_ok "PK")
              github_alice_foo "/w/master.zip" (Some "/w")
              (Sample.start Sample.disk)
              (World (<["/w/master.zip" := File "PK"]> Sample.disk)
                     [Urlretrieve github_alice_foo "/w/master.zip"]))
    as (_ & Hf & m & Hm & _).
  - vm_compute; reflexivity.
  - split; [exact Hf|]. exists m. exact Hm.
Defined.

Lemma clone_from_url_never_merges_witness :
  let w := Sample.start (<["/w/foo-master" := Dir]> Sample.disk) in
  clone_from_url Sample.cwd (Sample.urlretrieve_ok "PK")
                 (Sample.zip_read ["foo-master/"; "foo-master/README.md"])
                 (Sample.zip_extractall ["foo-master/"; "foo-master/README.md"])
                 github_alice_foo (Some "/w") w
  = (inl (IsADirectoryError "/w/foo-master/"),
     World (fs w) [Urlretrieve github_alice_foo "/w/master.zip";
                   Remove "/w/master.zip"]).
Proof.
  intros w.
  rewrite (clone_from_url_never_merges Sample.cwd (Sample.urlretrieve_ok "PK")
             (Sample.zip_read ["foo-master/"; "foo-master/README.md"])
             (Sample.zip_extractall ["foo-master/"; "foo-master/README.md"])
             github_alice_foo "/w" "/w/master.zip" "foo-master/" (Some "/w") w
             (World (<["/w/master.zip" := File "PK"]> (fs w))
                    [Urlretrieve github_alice_foo "/w/master.zip"])
             (Zip "/w/master.zip" "PK" ["foo-master/"; "foo-master/README.md"])).
  - vm_compute; reflexivity.
  - vm_compute; reflexivity.
  - vm_compute; reflexivity.
  - vm_compute; reflexivity.
  - vm_compute; reflexivity.
  - vm_compute; reflexivity.
Defined.

Lemma clone_from_url_success_witness :
  let r := clone_from_url Sample.cwd (Sample.urlretrieve_ok "PK")
                          (Sample.zip_read ["foo-master/"; "foo-master/README.md"])
                          (Sample.zip_extractall ["foo-master/"; "foo-master/README.md"])
                          github_alice_foo (Some "/w") (Sample.start Sample.disk) in
  fst r = inr "/w/foo-master/" /\
  Fs.isdir (fs (snd r)) "/w/foo-master/" = true /\
  Fs.isfile (fs (snd r)) "/w/master.zip" = false.
Proof.
  intros r.
  assert (H : r = (inr "/w/foo-master/", snd r)) by (vm_compute; reflexivity).
  pose proof H as H'.
  apply clone_from_url_success in H'
    as (p & zip_path & w1 & repo & root & Hp & Hd & _ & _ & _ & _ & Hdir & Hzip & _).
  assert (Hz : zip_path = "/w/master.zip").
  { vm_compute in Hp. injection Hp as <-.
    apply download_file_returns in Hd.
    vm_compute in Hd. now injection Hd as <-. }
  subst zip_path. rewrite H at 1. auto.
Defined.

Lemma clone_success_witness :
  let r := clone Sample.unicode_lower Sample.cwd (Sample.urlretrieve_ok "PK")
                 (Sample.zip_read ["foo-master/"; "foo-master/README.md"])
                 (Sample.zip_extractall ["foo-master/"; "foo-master/README.md"])
                 "foo" "alice" "github.com" (Some "/w") (Sample.start Sample.disk) in
  fst r = inr "/w/foo" /\ Fs.isdir (fs (snd r)) "/w/foo" = true.
Proof.
  intros r.
  assert (H : r = (inr "/w/foo", snd r)) by (vm_compute; reflexivity).
  pose proof H as H'.
  apply clone_success in H'
    as (p & k & src & w1 & _ & _ & _ & _ & _ & _ & _ & Hdir).
  rewrite H at 1. auto.
Defined.

Lemma parent_must_be_directory_witness :
  clone Sample.unicode_lower
      Sample.cwd (Sample.urlretrieve_ok "PK") (Sample.zip_read ["foo-master/"])
        (Sample.zip_extractall ["foo-master/"])
        "foo" "alice" "github" (Some "/nowhere") (Sample.start Sample.disk)
  = (inl (NotADirectoryError "/nowhere"), Sample.start Sample.disk).
Proof.
  apply (parent_must_be_directory Sample.unicode_lower
      Sample.cwd (Sample.urlretrieve_ok "PK")
           (Sample.zip_read ["foo-master/"]) (Sample.zip_extractall ["foo-master/"])
           "/nowhere" (Sample.start Sample.disk)).
  vm_compute; reflexivity.
Defined.

Lemma clone_blocked_by_leftover_archive_witness :
  let w := Sample.start (<["/w/master.zip" := File "old"]> Sample.disk) in
  clone Sample.unicode_lower
      Sample.cwd (Sample.urlretrieve_ok "PK") (Sample.zip_read ["foo-master/"])
        (Sample.zip_extractall ["foo-master/"])
        "foo" "alice" "Bitbucket.org" (Some "/w") w
  = (inl (FileExistsError "/w/master.zip"), w).
Proof.
  intros w.
  apply (clone_blocked_by_leftover_archive Sample.unicode_lower
      Sample.cwd (Sample.urlretrieve_ok "PK")
           (Sample.zip_read ["foo-master/"]) (Sample.zip_extractall ["foo-master/"])
           "foo" "alice" "Bitbucket.org" "bitbucket" "/w" (Some "/w") w).
  - vm_compute; reflexivity.
  - vm_compute; reflexivity.
  - vm_compute; reflexivity.
  - vm_compute; reflexivity.
  - vm_compute; reflexivity.
Defined.

Lemma search_stops_at_exception_witness :
  search Sample.unicode_lower
      (Sample.urlopen_raising github_bob_foo (OtherError "InvalidURL")
            [github_alice_foo])
         Sample.nobody (Seq ["foo"]) (Some (Seq ["alice"; "bob"]))
         (Some (Seq ["github"; "bitbucket"]))
  = ([Probed github_alice_foo; Yielded ("foo", "alice", "github");
      Probed github_bob_foo],
     Some (OtherError "InvalidURL")).
Proof.
  apply (search_stops_at_exception Sample.unicode_lower
           (Sample.urlopen_raising github_bob_foo (OtherError "InvalidURL")
              [github_alice_foo])
           Sample.nobody ["foo"] ["alice"; "bob"] ["github"; "bitbucket"]
           ["github"; "bitbucket"]
           [("github", "alice", "foo")]
           [("bitbucket", "alice", "foo"); ("bitbucket", "bob", "foo")]
           ("github", "bob", "foo") (OtherError "InvalidURL")).
  - repeat constructor.
  - reflexivity.
  - repeat constructor.
  - vm_compute; reflexivity.
  - reflexivity.
Defined.

Lemma search_yields_answered_witness :
  Sample.urlopen [github_alice_foo]
                 (Str.format (template_of "github") "alice" "foo") = None.
Proof.
  apply (search_yields_answered Sample.unicode_lower
      (Sample.urlopen [github_alice_foo]) Sample.nobody
           (Str1 "foo") (Some (Seq ["alice"; "bob"])) None "foo" "alice" "github").
  vm_compute. left; reflexivity.
Defined.

Lemma search_default_sites_witness :
  search Sample.unicode_lower (Sample.urlopen [github_alice_foo]) Sample.nobody
         (Str1 "foo") (Some (Str1 "alice")) None
  = ([Probed bitbucket_alice_foo;
      Probed github_alice_foo; Yielded ("foo", "alice", "github")],
     None).
Proof.
  apply (search_default_sites Sample.unicode_lower
      (Sample.urlopen [github_alice_foo]) Sample.nobody
           (Str1 "foo") (Some (Str1 "alice")) ["alice"]).
  - reflexivity.
  - repeat constructor; vm_compute; reflexivity.
Defined.

Lemma main_usage_witness :
  main Sample.unicode_lower Sample.cwd (Sample.urlopen []) (Sample.urlretrieve_ok "PK")
       (Sample.zip_read []) (Sample.zip_extractall []) Sample.nobody
       ["foo"; "alice"; "github"; "extra"] (Sample.start Sample.home)
  = (inr 1, Console [USAGE] [], Sample.start Sample.home).
Proof.
  apply main_usage. right. cbn. lia.
Defined.

Lemma main_cloned_witness :
  let r := main Sample.unicode_lower Sample.cwd (Sample.urlopen [github_alice_foo])
                (Sample.urlretrieve_ok "PK")
                (Sample.zip_read ["foo-master/"])
                (Sample.zip_extractall ["foo-master/"]) Sample.alice
                ["foo"] (Sample.start Sample.home) in
  fst (fst r) = inr 0 /\
  Fs.isdir (fs (snd r)) "/home/alice/foo" = true.
Proof.
  intros r.
  assert (H : r = (inr 0, snd (fst r), snd r)) by (vm_compute; reflexivity).
  pose proof H as H'.
  apply main_cloned in H'
    as (repo & rest & path & fails & url & Ha & _ & -> & _ & Hdir & _).
  injection Ha as <- _.
  rewrite H at 1. auto.
Defined.

Lemma main_failed_witness :
  let r := main Sample.unicode_lower
      Sample.cwd (Sample.urlopen []) (Sample.urlretrieve_ok "PK")
                (Sample.zip_read ["foo-master/"])
                (Sample.zip_extractall ["foo-master/"]) Sample.alice
                ["foo"; "bob"] (Sample.start Sample.home) in
  fst (fst r) = inr 1 /\ snd r = Sample.start Sample.home.
Proof.
  intros r.
  assert (H : r = (inr 1, snd (fst r), snd r)) by (vm_compute; reflexivity).
  pose proof H as H'.
  apply main_failed in H' as (Hw & _).
  rewrite H at 1. auto.
Defined.

Lemma main_raises_witness :
  main Sample.unicode_lower
      Sample.cwd (Sample.urlopen [github_alice_foo]) (Sample.urlretrieve_ok "PK")
       (Sample.zip_read ["foo-master/"]) (Sample.zip_extractall ["foo-master/"])
       Sample.alice ["foo"; "alice"; "gitlab"] (Sample.start Sample.home)
  = (inl (KeyError "gitlab"), Console [] [], Sample.start Sample.home).
Proof.
  apply (proj1 (main_raises Sample.unicode_lower
      Sample.cwd (Sample.urlopen [github_alice_foo])
                  (Sample.urlretrieve_ok "PK") (Sample.zip_read ["foo-master/"])
                  (Sample.zip_extractall ["foo-master/"]) Sample.alice "foo"
                  (Sample.start Sample.home))).
  reflexivity.
Defined.

Lemma clone_from_url_rejects_witness :
  clone_from_url Sample.cwd (Sample.urlretrieve_ok "PK")
                 (Sample.zip_read ["README.md"; "/etc/passwd"; "foo-master/"])
                 (Sample.zip_extractall ["README.md"; "/etc/passwd"; "foo-master/"])
                 github_alice_foo (Some "/w") (Sample.start Sample.disk)
  = (inl (AssertionError absolute_path_msg),
     World Sample.disk [Urlretrieve github_alice_foo "/w/master.zip";
                        Remove "/w/master.zip"]).
Proof.
  destruct (clone_from_url_rejects Sample.cwd (Sample.urlretrieve_ok "PK")
              (Sample.zip_read ["README.md"; "/etc/passwd"; "foo-master/"])
              (Sample.zip_extractall ["README.md"; "/etc/passwd"; "foo-master/"])
              github_alice_foo "/w" "/w/master.zip" (Some "/w")
              (Sample.start Sample.disk)
              (World (<["/w/master.zip" := File "PK"]> Sample.disk)
                     [Urlretrieve github_alice_foo "/w/master.zip"])
              (Zip "/w/master.zip" "PK"
                   ["README.md"; "/etc/passwd"; "foo-master/"])) as [H _].
  - vm_compute; reflexivity.
  - vm_compute; reflexivity.
  - vm_compute; reflexivity.
  - rewrite H.
    + vm_compute; reflexivity.
    + exists ["README.md"], "/etc/passwd", ["foo-master/"].
      repeat split; try reflexivity. repeat constructor.
Defined.

Lemma clone_from_url_extraction_fails_witness :
  fst (clone_from_url Sample.cwd (Sample.urlretrieve_ok "PK")
         (Sample.zip_read ["foo-master/"])
         (Sample.zip_extractall [])
         github_alice_foo (Some "/w") (Sample.start Sample.disk))
  = inl (NotADirectoryError "/w/foo-master/").
Proof.
  rewrite (clone_from_url_extraction_fails Sample.cwd (Sample.urlretrieve_ok "PK")
             (Sample.zip_read ["foo-master/"]) (Sample.zip_extractall [])
             github_alice_foo "/w" "/w/master.zip" "foo-master/" (Some "/w")
             (Sample.start Sample.disk)
             (World (<["/w/master.zip" := File "PK"]> Sample.disk)
                    [Urlretrieve github_alice_foo "/w/master.zip"])
             (Zip "/w/master.zip" "PK" ["foo-master/"])
             (<["/w/master.zip" := File "PK"]> Sample.disk) None).
  - reflexivity.
  - vm_compute; reflexivity.
  - vm_compute; reflexivity.
  - vm_compute; reflexivity.
  - vm_compute; reflexivity.
  - vm_compute; reflexivity.
  - vm_compute; reflexivity.
  - intros _. vm_compute; reflexivity.
Defined.
